(** * libDistMesh: the relaxation engine and its helpers

    A shallow embedding of [src/distmesh.cpp] (boundingBox, distmesh,
    boundEdges) and of [src/utils.cpp] (create_point_list, find_unique_bars,
    project_points_to_function), with the properties of the mesh generator
    stated over it.

    Conventions of the embedding:
    - an array is the list of its rows; a coefficient or a row outside an
      array, on which Eigen asserts, is read as a default (0, the empty row)
      and written nowhere;
    - the coordinates are scalars of a type that carries the operations the
      sources apply to [double] ([RealOps]); statements that depend on the
      arithmetic are made on the IEEE binary64 instance, Rocq's primitive
      floats;
    - a distance or size function is given by its value at one point and
      evaluated on every row of an array of points;
    - indices of points and of edges are integers;
    - distmesh.cpp calls its helpers as [utils::findUniqueEdges] and
      [utils::projectPointsToBoundary]; utils.cpp defines them as
      [find_unique_bars] and [project_points_to_function], which is what is
      embedded.  The triangulator, [std::pow], the constants of
      distmesh/constants.h and [utils::getTriangulationEdgeIndices] are
      parameters. *)

From stdpp Require Import base list gmap.
From Stdlib Require Import ZArith Floats Lia Sorted.

(** ** Scalars *)

(** The operations on [dtype::real] / [double] that occur in the sources.
    [of_int] is the conversion of an integral value or literal ([0.0], [1.0],
    [2.0], [-1.0], [dimension], [triangulation.cols()]); [rltb a b] is
    [a < b]. *)
Class RealOps (R : Type) : Type := {
  of_int : Z -> R;
  lit_0_4 : R;
  lit_0_5 : R;
  INFINITY : R;
  epsilon : R;
  radd : R -> R -> R;
  rsub : R -> R -> R;
  rmul : R -> R -> R;
  rdiv : R -> R -> R;
  rneg : R -> R;
  rsqrt : R -> R;
  rltb : R -> R -> bool
}.

Section Scalars.
Context {R : Type} `{RealOps R}.

Definition rzero : R := of_int 0.
Definition rone : R := of_int 1.

(** [std::max(a, b)], the scalar functor behind Eigen's [.max(c)]. *)
Definition rmax (a b : R) : R := if rltb a b then b else a.

(** Eigen's [.square()]. *)
Definition square (x : R) : R := rmul x x.

(** Coefficient-wise sum and difference of two rows of the same width, and
    the product of a scalar with a row. *)
Definition vadd (a b : list R) : list R := zip_with radd a b.
Definition vsub (a b : list R) : list R := zip_with rsub a b.
Definition vscale (c : R) (v : list R) : list R := map (rmul c) v.

(** [.sum()] of a row: zero on an empty one, else the coefficients added
    from the first on, the order of Eigen's scalar traversal. *)
Definition vsum (v : list R) : R :=
  match v with
  | [] => rzero
  | x :: t => fold_left radd t x
  end.

(** [.square().rowwise().sum().sqrt()] of one row. *)
Definition row_norm (v : list R) : R := rsqrt (vsum (map square v)).

(** [.maxCoeff()]: the visitor starts at the first coefficient and replaces
    its candidate by every later coefficient greater than it.  On an array
    without coefficients the source asserts; the model returns zero. *)
Definition maxCoeff (v : list R) : R :=
  match v with
  | [] => rzero
  | x :: t => fold_left (fun res y => if rltb res y then y else res) t x
  end.

(** [points.row(i)] for an integer index; a row outside the array is
    undefined in the source and empty in the model. *)
Definition row_at (M : list (list R)) (i : Z) : list R :=
  if (i <? 0)%Z then [] else default [] (M !! Z.to_nat i).

(** [points.row(i) = f(points.row(i))], by index; no change outside the
    array. *)
Definition update_row (M : list (list R)) (i : Z) (f : list R -> list R)
  : list (list R) :=
  if (i <? 0)%Z then M else alter f (Z.to_nat i) M.
End Scalars.

(** The IEEE binary64 instance.  An integer is converted by rounding to
    nearest; [epsilon] is [std::numeric_limits<double>::epsilon()]. *)
Definition float_of_int (z : Z) : float :=
  SF2Prim (binary_normalize prec emax z 0 false).

#[export] Instance float_ops : RealOps float := {|
  of_int := float_of_int;
  lit_0_4 := 0x1.999999999999ap-2%float;
  lit_0_5 := 0x1p-1%float;
  INFINITY := infinity;
  epsilon := 0x1p-52%float;
  radd := PrimFloat.add;
  rsub := PrimFloat.sub;
  rmul := PrimFloat.mul;
  rdiv := PrimFloat.div;
  rneg := PrimFloat.opp;
  rsqrt := PrimFloat.sqrt;
  rltb := PrimFloat.ltb
|}.

(** ** Integer arrays *)

(** The coefficient [i] of a row of the triangulation; outside the row the
    source is undefined and the model reads 0. *)
Definition tri_at (row : list Z) (i : nat) : Z := default 0%Z (row !! i).

(** Number of columns of an array given by its rows. *)
Definition ncols {A : Type} (M : list (list A)) : nat :=
  match M with
  | [] => 0
  | r :: _ => length r
  end.

(** ** boundingBox (distmesh.cpp) *)

Definition boundingBox {R : Type} `{RealOps R} (dimension : nat) : list (list R) :=
  [ replicate dimension (of_int (-1)); replicate dimension (of_int 1) ].

(** ** find_unique_bars (utils.cpp) *)

(** A bar is [std::array<index, 2>]; [std::set] orders bars
    lexicographically. *)
Abbreviation bar := (Z * Z)%type.

Definition bar_ltb (a b : bar) : bool :=
  ((a.1 <? b.1) || ((a.1 =? b.1) && (a.2 <? b.2)))%Z.

(** [bar_indices_set.insert(bar)] on the set kept as its increasing list of
    elements, the order in which the source iterates over it. *)
Fixpoint set_insert (b : bar) (s : list bar) : list bar :=
  match s with
  | [] => [b]
  | x :: s' =>
      if bar_ltb b x then b :: s
      else if bar_ltb x b then x :: set_insert b s'
      else s
  end.

(** The assignment to [bar]: the first index when it is greater than the
    second comes first, else the second. *)
Definition ordered_bar (a b : Z) : bar :=
  if (b <? a)%Z then (a, b) else (b, a).

(** The bar of the vertices at positions [i] and [(i + 1) % (cols + 1)] of a
    simplex. *)
Definition bar_of (cols : nat) (simplex : list Z) (i : nat) : bar :=
  ordered_bar (tri_at simplex i) (tri_at simplex ((i + 1) mod (cols + 1))).

(** [cols] is [points->cols()].  The result lists the set in its iteration
    order, one bar per row of the returned array. *)
Definition find_unique_bars (cols : nat) (triangulation : list (list Z)) : list bar :=
  fold_left
    (fun set simplex =>
       fold_left (fun set i => set_insert (bar_of cols simplex i) set)
                 (seq 0 (cols + 1)) set)
    triangulation [].

(** ** project_points_to_function (utils.cpp) *)

Section Projection.
Context {R : Type} `{RealOps R}.
Variable distance_function : list R -> R.
Variable initial_edge_length : R.
(** The content of a coefficient of the freshly allocated [gradient] array
    before it is written. *)
Variable uninitialized : R.

(** [std::sqrt(std::numeric_limits<dtype::real>::epsilon()) * initial_edge_length] *)
Definition fd_step : R := rmul (rsqrt epsilon) initial_edge_length.

(** The loop over [dim]: [deltaX] is set to the step at [dim], the
    difference quotient is stored in the gradient row, [deltaX] is reset. *)
Definition gradient_loop (p : list R) (dist : R) (dims : list nat)
    (deltaX gradient : list R) : list R * list R :=
  fold_left
    (fun '(deltaX, gradient) dim =>
       let deltaX1 := <[dim := fd_step]> deltaX in
       let gradient1 :=
         <[dim := rdiv (rsub (distance_function (vadd p deltaX1)) dist) fd_step]>
           gradient in
       (<[dim := rzero]> deltaX1, gradient1))
    dims (deltaX, gradient).

Definition gradient_row (p : list R) (dist : R) : list R :=
  (gradient_loop p dist (seq 0 (length p))
     (replicate (length p) rzero) (replicate (length p) uninitialized)).2.

(** [points->row(point) -= distance * gradient.row(point) /
    gradient.row(point).square().sum()] *)
Definition project_row (p : list R) (dist : R) (gradient : list R) : list R :=
  let denominator := vsum (map square gradient) in
  vsub p (map (fun g => rdiv (rmul dist g) denominator) gradient).

Definition project_points_to_function (points : list (list R)) : list (list R) :=
  let distance := map distance_function points in
  let outside := map (fun d => rltb rzero d) distance in
  if existsb id outside then
    fold_left
      (fun points point =>
         if default false (outside !! point) then
           let dist := default rzero (distance !! point) in
           let p := default [] (points !! point) in
           <[point := project_row p dist (gradient_row p dist)]> points
         else points)
      (seq 0 (length points)) points
  else points.
End Projection.

(** ** Helpers of distmesh.cpp *)

(** Modelled from the spec: [utils::selectIndexedArrayElements], the generic
    gather of rows by index: row [k] of the result is the row of [array]
    named by the [k]-th index. *)
Definition selectIndexedArrayElements {R : Type} (array : list (list R))
    (indices : list Z) : list (list R) :=
  map (row_at array) indices.

(** Modelled from the spec: [utils::selectMaskedArrayElements], the generic
    filter of rows by a boolean mask: the rows whose mask entry is set, in
    their order. *)
Fixpoint selectMaskedArrayElements {A : Type} (array : list A) (mask : list bool)
    : list A :=
  match array, mask with
  | r :: array', m :: mask' =>
      if m then r :: selectMaskedArrayElements array' mask'
      else selectMaskedArrayElements array' mask'
  | _, _ => []
  end.

(** [utils::findUniqueEdges] of distmesh.cpp, the edge extractor, is utils.cpp's
    [find_unique_bars], with the width of a simplex row, less one, for
    [points->cols()]. *)
Definition findUniqueEdges (triangulation : list (list Z)) : list bar :=
  find_unique_bars (ncols triangulation - 1) triangulation.

(** ** distmesh (distmesh.cpp) *)

(** The variables of the relaxation loop. [edgeIndices] is [None] while the
    array is as default-constructed, before its first assignment. *)
Record State (R : Type) : Type := mkState {
  points : list (list R);
  triangulation : list (list Z);
  retriangulationCriterionBuffer : list (list R);
  stopCriterionBuffer : list (list R);
  edgeIndices : option (list bar)
}.
Arguments mkState {R} _ _ _ _ _.
Arguments points {R} _.
Arguments triangulation {R} _.
Arguments retriangulationCriterionBuffer {R} _.
Arguments stopCriterionBuffer {R} _.
Arguments edgeIndices {R} _.

Section Relaxation.
Context {R : Type} `{RealOps R}.

(** The two fields, given by their value at one point; as [Functional]s they
    are evaluated on every row of an array of points. *)
Variable distanceFunction : list R -> R.
Variable elementSizeFunction : list R -> R.
Variable initialPointDistance : R.
(** [boundingBox.cols()] *)
Variable dimension : nat.
Variable fixedPoints : list (list R).
(** The array [utils::createInitialPoints] returns for the arguments of the
    run, and the triangulator. *)
Variable createInitialPoints : list (list R).
Variable delaunay : list (list R) -> list (list Z).
(** [std::pow] *)
Variable pow : R -> R -> R.
(** distmesh/constants.h *)
Variable maxSteps : nat.
Variable retriangulationThreshold : R.
Variable geometryEvaluationThreshold : R.
Variable pointsMovementThreshold : R.
Variable deltaT : R.
Variable uninitialized : R.

(** [(a - b).square().rowwise().sum().sqrt().maxCoeff()] *)
Definition displacement (a b : list (list R)) : R :=
  maxCoeff (map row_norm (zip_with vsub a b)).

Definition retriangulation_test (st : State R) : bool :=
  rltb (rmul retriangulationThreshold initialPointDistance)
       (displacement (points st) (retriangulationCriterionBuffer st)).

(** The accumulation of the centroids, one column of the simplex array at a
    time. *)
Definition circumcenter (pts : list (list R)) (tri : list (list Z))
    : list (list R) :=
  fold_left
    (fun acc point =>
       zip_with vadd acc
         (map (map (fun x => rdiv x (of_int (Z.of_nat (ncols tri)))))
            (selectIndexedArrayElements pts (map (fun s => tri_at s point) tri))))
    (seq 0 (ncols tri))
    (replicate (length tri) (replicate dimension rzero)).

Definition inside_mask (centers : list (list R)) : list bool :=
  map (fun d => rltb d (rmul (rneg geometryEvaluationThreshold) initialPointDistance))
      (map distanceFunction centers).

Definition retriangulate (st : State R) : State R :=
  let tri := delaunay (points st) in
  let tri' :=
    selectMaskedArrayElements tri (inside_mask (circumcenter (points st) tri)) in
  {| points := points st;
     triangulation := tri';
     retriangulationCriterionBuffer := points st;
     stopCriterionBuffer := stopCriterionBuffer st;
     edgeIndices := Some (findUniqueEdges tri') |}.

Definition retriangulation_phase (st : State R) : State R :=
  if retriangulation_test st then retriangulate st else st.

Definition edgeVector (pts : list (list R)) (edges : list bar) : list (list R) :=
  zip_with vsub (selectIndexedArrayElements pts (map fst edges))
                (selectIndexedArrayElements pts (map snd edges)).

Definition edgeLength (pts : list (list R)) (edges : list bar) : list R :=
  map row_norm (edgeVector pts edges).

Definition desiredElementSize (pts : list (list R)) (edges : list bar) : list R :=
  map elementSizeFunction
    (map (vscale lit_0_5)
       (zip_with vadd (selectIndexedArrayElements pts (map fst edges))
                      (selectIndexedArrayElements pts (map snd edges)))).

(** [dimension - 1] is computed on [unsigned]. *)
Definition bias : R :=
  radd rone (rdiv lit_0_4
               (pow (of_int 2) (of_int ((Z.of_nat dimension - 1) mod 2 ^ 32)))).

Definition scale (len size : list R) : R :=
  pow (rdiv (vsum (map (fun l => pow l (of_int (Z.of_nat dimension))) len))
            (vsum (map (fun s => pow s (of_int (Z.of_nat dimension))) size)))
      (rdiv rone (of_int (Z.of_nat dimension))).

Definition desiredEdgeLength (pts : list (list R)) (edges : list bar) : list R :=
  let len := edgeLength pts edges in
  let size := desiredElementSize pts edges in
  map (fun s => rmul (rmul s bias) (scale len size)) size.

(** [((desiredEdgeLength - edgeLength) / edgeLength).max(0.0)] *)
Definition forceMagnitude (pts : list (list R)) (edges : list bar) : list R :=
  zip_with (fun l0 l => rmax (rdiv (rsub l0 l) l) rzero)
           (desiredEdgeLength pts edges) (edgeLength pts edges).

Definition forceVector (pts : list (list R)) (edges : list bar) : list (list R) :=
  zip_with (fun v f => map (fun c => rmul c f) v)
           (edgeVector pts edges) (forceMagnitude pts edges).

(** The loop that moves the points: both ends of every edge, unless the end
    is one of the first [fixedPoints.rows()] points. *)
Definition move_points (pts : list (list R)) (edges : list bar)
    (force : list (list R)) : list (list R) :=
  fold_left
    (fun pts '(e, f) =>
       let pts1 :=
         if (Z.of_nat (length fixedPoints) <=? e.1)%Z
         then update_row pts e.1 (fun r => vadd r (vscale deltaT f)) else pts in
       if (Z.of_nat (length fixedPoints) <=? e.2)%Z
       then update_row pts1 e.2 (fun r => vsub r (vscale deltaT f)) else pts1)
    (zip edges force) pts.

(** [utils::projectPointsToBoundary], which [distmesh] calls on the whole
    point array, is utils.cpp's [project_points_to_function]. *)
Definition projectPointsToBoundary (pts : list (list R)) : list (list R) :=
  project_points_to_function distanceFunction initialPointDistance uninitialized pts.

(** The rest of the loop body, from the edge vectors to the projection.  The
    columns of the edge array as default-constructed are out of range in the
    source; the model has no edge then. *)
Definition force_phase (st : State R) : State R :=
  let edges := default [] (edgeIndices st) in
  let force := forceVector (points st) edges in
  {| points := projectPointsToBoundary (move_points (points st) edges force);
     triangulation := triangulation st;
     retriangulationCriterionBuffer := retriangulationCriterionBuffer st;
     stopCriterionBuffer := points st;
     edgeIndices := edgeIndices st |}.

Definition iteration (st : State R) : State R :=
  force_phase (retriangulation_phase st).

Definition stop_test (st : State R) : bool :=
  rltb (displacement (points st) (stopCriterionBuffer st))
       (rmul pointsMovementThreshold initialPointDistance).

(** The [for] loop with [remaining = maxSteps - step] iterations left; the
    result carries the number of iterations that were run. *)
Fixpoint main_loop (remaining : nat) (st : State R) : nat * State R :=
  match remaining with
  | O => (O, st)
  | S remaining' =>
      let st' := iteration st in
      if stop_test st' then (1, st')
      else let '(n, final) := main_loop remaining' st' in (S n, final)
  end.

Definition initial_state : State R :=
  let pts := createInitialPoints in
  {| points := pts;
     triangulation := delaunay pts;
     retriangulationCriterionBuffer := map (fun r => replicate (length r) INFINITY) pts;
     stopCriterionBuffer := map (fun r => replicate (length r) rzero) pts;
     edgeIndices := None |}.

Definition distmesh : list (list R) * list (list Z) :=
  let final := (main_loop maxSteps initial_state).2 in
  (points final, triangulation final).
End Relaxation.

(** ** boundEdges (distmesh.cpp), up to the orientation of the 2-D case *)

(** [std::find] followed by [erase]: the first occurrence is removed. *)
Fixpoint erase_first (x : Z) (l : list Z) : list Z :=
  match l with
  | [] => []
  | y :: l' => if decide (x = y) then l' else y :: erase_first x l'
  end.

(** One pass of the loop body over an edge index: [uniqueEdges] is the set of
    the indices met so far. *)
Definition scan_step (acc : gset Z * list Z) (edgeIndex : Z) : gset Z * list Z :=
  let '(uniqueEdges, boundaryEdges) := acc in
  if decide (edgeIndex ∈ uniqueEdges)
  then (uniqueEdges, erase_first edgeIndex boundaryEdges)
  else ({[ edgeIndex ]} ∪ uniqueEdges, boundaryEdges ++ [edgeIndex]).

(** The edge indices in the order the two nested loops read them:
    [edgeIndices(triangle, edge)] for every row of the triangulation and every
    column of it. *)
Definition incidences (triangulation edgeIndices : list (list Z)) : list Z :=
  flat_map
    (fun triangle =>
       map (fun edge => tri_at (default [] (edgeIndices !! triangle)) edge)
           (seq 0 (ncols triangulation)))
    (seq 0 (length triangulation)).

Definition boundaryEdges (triangulation edgeIndices : list (list Z)) : list Z :=
  (fold_left scan_step (incidences triangulation edgeIndices) (∅, [])).2.

Section Boundary.
(** [utils::getTriangulationEdgeIndices], not among the sources at hand: the
    array that gives, for every simplex, the rows of its edges in the edge
    array. *)
Variable getTriangulationEdgeIndices : list (list Z) -> list bar -> list (list Z).

(** The result of [boundEdges] before the signs of the 2-D case are set. *)
Definition boundEdges (triangulation : list (list Z)) (externalEdges : list bar)
    : list Z :=
  let edges :=
    if (length externalEdges =? 0)%nat then findUniqueEdges triangulation
    else externalEdges in
  boundaryEdges triangulation (getTriangulationEdgeIndices triangulation edges).
End Boundary.


(** ** boundEdges (distmesh.cpp): the orientation of the 2-D case *)

(** Arithmetic of [int]: a result is reduced to 32 bits, two's complement. *)
Definition wrap_int (x : Z) : Z := ((x + 2 ^ 31) mod 2 ^ 32 - 2 ^ 31)%Z.

(** The coefficient [(i, j)] of an array of integers; 0 outside the array. *)
Definition int_at (M : list (list Z)) (i j : nat) : Z :=
  tri_at (default [] (M !! i)) j.

(** [(edgeIndices - b).square()] *)
Definition square_difference (b : Z) (edgeIndices : list (list Z)) : list (list Z) :=
  map (map (fun x => wrap_int (wrap_int (x - b) * wrap_int (x - b)))) edgeIndices.

(** The order in which Eigen's visitor walks a column-major array: down the
    first column, then down the next. *)
Definition column_major (rows cols : nat) : list (nat * nat) :=
  flat_map (fun j => map (fun i => (i, j)) (seq 0 rows)) (seq 0 cols).

(** The visitor of [minCoeff]: a coefficient less than the candidate replaces
    it, with its position. *)
Definition min_visit (M : list (list Z)) (res : Z * (nat * nat)) (pos : nat * nat)
    : Z * (nat * nat) :=
  if (int_at M pos.1 pos.2 <? res.1)%Z then (int_at M pos.1 pos.2, pos) else res.

(** [.minCoeff(&row, &col)]: the position the visitor ends on, started on the
    coefficient [(0, 0)].  On an array without coefficients the source
    asserts; the model returns [(0, 0)]. *)
Definition minCoeff_index (M : list (list Z)) : nat * nat :=
  (fold_left (min_visit M) (column_major (length M) (ncols M))
     (int_at M 0 0, (0, 0))).2.

(** [edges(b, 0)] and [edges(b, 1)]; a row outside the array reads as zeros. *)
Definition edge_row (edges : list bar) (b : Z) : bar :=
  if (b <? 0)%Z then (0, 0)%Z else default (0, 0)%Z (edges !! Z.to_nat b).

(** The loop over [node] with its [break]: the first column of the simplex
    whose vertex is neither end of the edge, 0 when there is none. *)
Definition find_nodeIndex (simplex : list Z) (cols : nat) (e : bar) : nat :=
  default 0
    (List.find
       (fun node => negb (tri_at simplex node =? e.1)%Z &&
                    negb (tri_at simplex node =? e.2)%Z)
       (seq 0 cols)).

Section Orientation.
Context {R : Type} `{RealOps R}.
Variable getTriangulationEdgeIndices : list (list Z) -> list bar -> list (list Z).

(** [v(i)] of a row vector; zero outside the row. *)
Definition coefficient (v : list R) (i : nat) : R := default rzero (v !! i).

(** The test [v1(0) * v2(1) - v1(1) * v2(0) < 0.0] for the boundary entry
    [b]: [v1] runs along the edge, [v2] from its second end to the remaining
    node of the element found for it. *)
Definition wrong_orientation (nodes : list (list R)) (triangulation : list (list Z))
    (edges : list bar) (edgeIndices : list (list Z)) (b : Z) : bool :=
  let elementIndex := (minCoeff_index (square_difference b edgeIndices)).1 in
  let simplex := default [] (triangulation !! elementIndex) in
  let nodeIndex := find_nodeIndex simplex (ncols triangulation) (edge_row edges b) in
  let v1 := vsub (row_at nodes (edge_row edges b).2) (row_at nodes (edge_row edges b).1) in
  let v2 := vsub (row_at nodes (tri_at simplex nodeIndex))
                 (row_at nodes (edge_row edges b).2) in
  rltb (rsub (rmul (coefficient v1 0) (coefficient v2 1))
             (rmul (coefficient v1 1) (coefficient v2 0)))
       rzero.

(** The body of the loop over [edge]: [boundary(edge) *= -1] when the test
    holds. *)
Definition orient_step (nodes : list (list R)) (triangulation : list (list Z))
    (edges : list bar) (edgeIndices : list (list Z)) (boundary : list Z)
    (edge : nat) : list Z :=
  let b := tri_at boundary edge in
  if wrong_orientation nodes triangulation edges edgeIndices b
  then <[edge := wrap_int (b * -1)]> boundary
  else boundary.

(** The whole of [boundEdges]: the result of the scan, with the signs set
    when the nodes have two coordinates. *)
Definition boundEdges_oriented (nodes : list (list R))
    (triangulation : list (list Z)) (externalEdges : list bar) : list Z :=
  let edges :=
    if (length externalEdges =? 0)%nat then findUniqueEdges triangulation
    else externalEdges in
  let edgeIndices := getTriangulationEdgeIndices triangulation edges in
  let boundary := boundaryEdges triangulation edgeIndices in
  if (ncols nodes =? 2)%nat
  then fold_left (orient_step nodes triangulation edges edgeIndices)
                 (seq 0 (length boundary)) boundary
  else boundary.
End Orientation.


(** ** create_point_list (utils.cpp) *)

Section Sampler.
Context {R : Type} `{RealOps R}.
Variable distance_function : list R -> R.
Variable edge_length_function : list R -> R.
Variable initial_edge_length : R.
(** One row per dimension: the lower and the upper bound. *)
Variable bounding_box : list (list R).
(** [settings::general_precision] of distmesh/settings.h. *)
Variable general_precision : R.
(** The conversion of a [dtype::real] to a [dtype::index].  The type is
    declared in distmesh/dtype.h; the arithmetic on it is that of the
    integers, which it is as long as the counts and their product fit the
    type. *)
Variable to_index : R -> Z.
Variable pow : R -> R -> R.
(** [random_distribution(random_generator)]: the value of the call number
    [k] on the default-constructed engine. *)
Variable random : nat -> R.
(** The content of a coefficient of a freshly allocated array. *)
Variable uninitialized : R.

(** [1 + (bounding_box(dim, 1) - bounding_box(dim, 0)) / initial_edge_length],
    converted, for every [dim]. *)
Definition max_points_per_dimension : list Z :=
  map (fun bounds =>
         to_index (radd (of_int 1)
                     (rdiv (rsub (coefficient bounds 1) (coefficient bounds 0))
                           initial_edge_length)))
      bounding_box.

Definition max_point_count : Z :=
  fold_left Z.mul max_points_per_dimension 1%Z.

(** The body of the loop over [dim] that fills the grid: the state is
    [same_value_count] and the array; the inner loop writes the coefficient
    [dim] of every row. *)
Definition fill_dimension (state : Z * list (list R)) (dim : nat)
    : Z * list (list R) :=
  let '(same_value_count, initial_points) := state in
  (same_value_count * tri_at max_points_per_dimension dim,
   fold_left
     (fun initial_points point =>
        alter
          (fun row =>
             <[dim := radd (coefficient (default [] (bounding_box !! dim)) 0)
                        (rmul initial_edge_length
                           (of_int (Z.rem (Z.quot (Z.of_nat point) same_value_count)
                                          (tri_at max_points_per_dimension dim))))]>
               row)
          point initial_points)
     (seq 0 (Z.to_nat max_point_count)) initial_points)%Z.

Definition initial_points : list (list R) :=
  (fold_left fill_dimension (seq 0 (length bounding_box))
     (1%Z, replicate (Z.to_nat max_point_count)
             (replicate (length bounding_box) uninitialized))).2.

(** The rows copied to [inside_points], in the order of the copies;
    [inside_point_count] is their number. *)
Definition inside_points : list (list R) :=
  fold_left
    (fun inside point =>
       let row := default [] (initial_points !! point) in
       if rltb (distance_function row) (rmul general_precision initial_edge_length)
       then inside ++ [row] else inside)
    (seq 0 (length initial_points)) [].

Definition propability : list R := map edge_length_function inside_points.

(** [.minCoeff()]: the least coefficient by [std::min], taken from the first
    coefficient on.  On an array without coefficients the source asserts;
    the model returns zero. *)
Definition minCoeff (v : list R) : R :=
  match v with
  | [] => rzero
  | x :: t => fold_left (fun res y => if rltb y res then y else res) t x
  end.

(** The rows copied to [final_points], which the resize leaves. *)
Definition create_point_list : list (list R) :=
  let propability_norm := minCoeff propability in
  fold_left
    (fun final point =>
       if rltb (random point)
               (pow (rdiv propability_norm (default rzero (propability !! point)))
                    (of_int (Z.of_nat (length bounding_box))))
       then final ++ [default [] (inside_points !! point)] else final)
    (seq 0 (length propability)) [].
End Sampler.

(** The index along [dim] of the grid point number [point]:
    [(point / same_value_count) % max_points_per_dimension(dim, 0)] with
    [same_value_count] the product of the counts of the dimensions before
    [dim]. *)
Definition grid_index (counts : list Z) (dim : nat) (point : Z) : Z :=
  Z.rem (Z.quot point (fold_left Z.mul (take dim counts) 1%Z)) (tri_at counts dim).


(** The coordinate along [dim] of the grid point number [point]. *)
Definition grid_coordinate {R : Type} `{RealOps R} (initial_edge_length : R)
    (bounding_box : list (list R)) (counts : list Z) (point dim : nat) : R :=
  radd (coefficient (default [] (bounding_box !! dim)) 0)
       (rmul initial_edge_length
             (of_int (grid_index counts dim (Z.of_nat point)))).


(** The conversion of a binary64 to an integer as C++ makes it for a value
    in the range of the integer type: the fraction is dropped. *)
Definition float_to_index (x : float) : Z :=
  match Prim2SF x with
  | S754_finite s m e =>
      let magnitude :=
        if (0 <=? e)%Z then (Z.pos m * 2 ^ e)%Z else (Z.pos m / 2 ^ (- e))%Z in
      if s then (- magnitude)%Z else magnitude
  | _ => 0%Z
  end.

(** ** Notions used in the statements and proofs *)

(** What the scan of [boundEdges] maintains once it has read the edge indices
    [seen]: the set holds the indices read, the vector has no repetition and
    holds the indices read once. *)
Definition scan_inv (seen : list Z) (acc : gset Z * list Z) : Prop :=
  (forall x, x ∈ acc.1 <-> x ∈ seen) /\
  NoDup acc.2 /\
  (forall x, x ∈ acc.2 <-> count_occ Z.eq_dec seen x = 1).


(** The order of [std::set<std::array<index, 2>>] as a relation. *)
Definition bar_lt (a b : bar) : Prop :=
  (a.1 < b.1 \/ (a.1 = b.1 /\ a.2 < b.2))%Z.

(** Whether a bar joins the vertices [u] and [v], in either order. *)
Definition joins (u v : Z) (b : bar) : bool :=
  ((b.1 =? u) && (b.2 =? v) || (b.1 =? v) && (b.2 =? u))%Z.

(** Number of rows of an edge array that hold the unordered pair [{u, v}]. *)
Definition pair_count (u v : Z) (edges : list bar) : nat :=
  length (List.filter (joins u v) edges).

(** ** The boundary projection in the words of its specification *)

(** The step [eps * e_k] along axis [k] in [n] dimensions. *)
Definition spec_axis_step {R : Type} `{RealOps R} (eps : R) (k n : nat) : list R :=
  map (fun j => if (j =? k)%nat then eps else rzero) (seq 0 n).

(** The forward finite-difference gradient:
    [grad[k] = (distanceField(p + eps * e_k) - d) / eps]. *)
Definition spec_gradient {R : Type} `{RealOps R} (distanceField : list R -> R)
    (eps : R) (p : list R) : list R :=
  map (fun k =>
         rdiv (rsub (distanceField (vadd p (spec_axis_step eps k (length p))))
                    (distanceField p)) eps)
      (seq 0 (length p)).

(** One Newton step [p - d * grad / |grad|^2] with
    [eps = sqrt(machineEpsilon) * h0]. *)
Definition spec_projection {R : Type} `{RealOps R} (distanceField : list R -> R)
    (h0 : R) (p : list R) : list R :=
  let eps := rmul (rsqrt epsilon) h0 in
  let grad := spec_gradient distanceField eps p in
  let norm2 := vsum (map (fun g => rmul g g) grad) in
  zip_with (fun x g => rsub x (rdiv (rmul (distanceField p) g) norm2)) p grad.

(** ** A one-dimensional run on binary64, for the examples *)

(** [std::pow] on the exponents a run of dimension 1 passes to it, 0 and 1,
    where it is exact: [pow(x, 0) = 1] and [pow(x, 1) = x]. *)
Definition pow_1d (x y : float) : float :=
  if PrimFloat.eqb y 0 then 1%float else x.

(** The signed distance to the segment [0, 4] of the line, [|x - 2| - 2]. *)
Definition segment_distance (p : list float) : float :=
  (abs (default 0 (p !! 0%nat) - 2) - 2)%float.

(** A field that is 1 everywhere, outside any domain. *)
Definition outside_everywhere (p : list float) : float := 1%float.

Definition unit_size (p : list float) : float := 1%float.

(** A triangulator for three points on the line: the segments between
    neighbours. *)
Definition two_segments (pts : list (list float)) : list (list Z) :=
  [[0; 1]; [1; 2]]%Z.

(** One iteration of the run with [h0 = 1], [deltaT = 0.2],
    [retriangulationThreshold = 0.1] and [geometryEvaluationThreshold =
    0.001], from the state [distmesh] starts the loop in. *)
Definition first_iteration_1d (fixedPoints pts : list (list float)) : State float :=
  iteration segment_distance unit_size 1%float 1 fixedPoints two_segments pow_1d
    0x1.999999999999ap-4%float 0x1.0624dd2f1a9fcp-10%float
    0x1.999999999999ap-3%float 0%float
    (initial_state pts two_segments).

(** ** The centroid of one simplex *)

(** The mean of the vertices of a simplex as [distmesh] accumulates it: from
    the zero row, the coordinates of every vertex divided by the number of
    vertices are added, in the order of the row. *)
Definition centroid {R : Type} `{RealOps R} (dimension : nat) (pts : list (list R))
    (simplex : list Z) : list R :=
  fold_left
    (fun acc vertex =>
       vadd acc (map (fun x => rdiv x (of_int (Z.of_nat (length simplex))))
                     (row_at pts vertex)))
    simplex (replicate dimension rzero).

(** ** Signs of binary64 values, on their specification *)

(** A value of sign [s]: a zero, an infinity or a finite number with this
    sign bit; not a NaN. *)
Definition SF_signed (s : bool) (x : spec_float) : Prop :=
  match x with
  | S754_zero s' | S754_infinity s' | S754_finite s' _ _ => s' = s
  | S754_nan => False
  end.

(** A value that is not greater than zero: a zero of either sign, the
    negative infinity or a negative finite number. *)
Definition SF_nonpos (x : spec_float) : Prop :=
  match x with
  | S754_zero _ => True
  | S754_infinity s | S754_finite s _ _ => s = true
  | S754_nan => False
  end.

(** * Properties *)

(** ** boundingBox *)

(** C9, as amended: [boundingBox d] has two rows of [d] columns each; every
    coefficient of row 0 is -1 (the minima) and every coefficient of row 1 is
    1 (the maxima), so that column [k] holds the pair [-1, 1] of dimension
    [k]. *)
Theorem boundingBox_shape {R : Type} `{RealOps R} (d : nat) :
  length (boundingBox (R:=R) d) = 2 /\
  Forall (fun row => length row = d) (boundingBox (R:=R) d) /\
  (forall k, k < d ->
     (boundingBox d !! 0) ≫= (.!! k) = Some (of_int (-1)) /\
     (boundingBox d !! 1) ≫= (.!! k) = Some (of_int 1)).
Proof.
  split; [reflexivity|]. split.
  - repeat constructor; apply length_replicate.
  - intros k Hk. simpl. split; apply lookup_replicate_2; exact Hk.
Qed.

(** C9 fails as stated: for [d = 2] the array of the claim has the rows
    [-1, 1] and [-1, 1], the array returned has the rows [-1, -1] and
    [1, 1]. *)
Lemma boundingBox_rows_are_not_min_max :
  boundingBox (R:=float) 2 <> replicate 2 [of_int (-1); of_int 1].
Proof.
  intro Heq.
  assert (Hb := f_equal
    (fun a : list (list float) =>
       from_option (fun x => PrimFloat.eqb x 1) false ((a !! 0) ≫= (.!! 1))) Heq).
  vm_compute in Hb. discriminate Hb.
Qed.

(** ** boundEdges *)

Lemma erase_first_elem (x y : Z) (l : list Z) :
  NoDup l -> y ∈ erase_first x l <-> y ∈ l /\ y <> x.
Proof.
  induction l as [|z l IH]; simpl; intros Hnd.
  - rewrite elem_of_nil. tauto.
  - apply NoDup_cons in Hnd as [Hz Hnd].
    destruct (decide (x = z)) as [->|Hne].
    + rewrite elem_of_cons. split.
      * intros Hy. split; [by right|]. intros ->. contradiction.
      * intros [[->|Hy] Hyz]; [contradiction|exact Hy].
    + rewrite !elem_of_cons, IH by exact Hnd. split.
      * intros [->|[Hy Hyx]]; [split; [by left|congruence]|split; [by right|exact Hyx]].
      * intros [[->|Hy] Hyx]; [by left|right; by split].
Qed.

Lemma erase_first_NoDup (x : Z) (l : list Z) : NoDup l -> NoDup (erase_first x l).
Proof.
  induction l as [|z l IH]; simpl; intros Hnd; [constructor|].
  pose proof Hnd as Hnd'.
  apply NoDup_cons in Hnd as [Hz Hnd].
  destruct (decide (x = z)); [exact Hnd|].
  apply NoDup_cons. split; [|by apply IH].
  rewrite erase_first_elem by exact Hnd. tauto.
Qed.

Lemma count_occ_snoc (l : list Z) (x y : Z) :
  count_occ Z.eq_dec (l ++ [x]) y
  = count_occ Z.eq_dec l y + (if decide (x = y) then 1 else 0).
Proof.
  rewrite count_occ_app. simpl.
  destruct (Z.eq_dec x y), (decide (x = y)); congruence || lia.
Qed.

Lemma count_occ_pos_elem (l : list Z) (x : Z) :
  x ∈ l <-> 0 < count_occ Z.eq_dec l x.
Proof.
  rewrite list_elem_of_In, (count_occ_In Z.eq_dec). lia.
Qed.

Lemma scan_step_inv (seen : list Z) (acc : gset Z * list Z) (x : Z) :
  scan_inv seen acc -> scan_inv (seen ++ [x]) (scan_step acc x).
Proof.
  destruct acc as [S B]. intros (HS & Hnd & HB). simpl in *.
  unfold scan_step. destruct (decide (x ∈ S)) as [Hin|Hnin].
  - assert (Hc : 0 < count_occ Z.eq_dec seen x)
      by (apply count_occ_pos_elem, HS, Hin).
    split; [|split]; simpl.
    + intros y. rewrite elem_of_app, list_elem_of_singleton, HS.
      split; [tauto|]. intros [Hy| ->]; [exact Hy|by apply HS].
    + by apply erase_first_NoDup.
    + intros y. rewrite erase_first_elem, count_occ_snoc, HB by exact Hnd.
      destruct (decide (x = y)) as [->|Hne]; [lia|].
      split; [lia|]. intros Hy. split; [lia|congruence].
  - assert (Hc : count_occ Z.eq_dec seen x = 0).
    { destruct (count_occ Z.eq_dec seen x) eqn:E; [reflexivity|].
      exfalso. apply Hnin, HS, count_occ_pos_elem. lia. }
    assert (HxB : x ∉ B) by (rewrite HB; lia).
    split; [|split]; simpl.
    + intros y.
      rewrite elem_of_union, elem_of_singleton, elem_of_app, list_elem_of_singleton, HS.
      tauto.
    + apply NoDup_app. split; [exact Hnd|]. split; [|apply NoDup_singleton].
      intros y Hy. rewrite list_elem_of_singleton. intros ->. contradiction.
    + intros y. rewrite elem_of_app, list_elem_of_singleton, count_occ_snoc, HB.
      destruct (decide (x = y)) as [->|Hne].
      * split; [lia|]. intros _. by right.
      * split; [intros [Hy|Hy]; [lia|congruence]|]. intros Hy. left. lia.
Qed.

Lemma scan_inv_fold (l seen : list Z) (acc : gset Z * list Z) :
  scan_inv seen acc -> scan_inv (seen ++ l) (fold_left scan_step l acc).
Proof.
  revert seen acc. induction l as [|x l IH]; intros seen acc Hinv; simpl.
  - by rewrite app_nil_r.
  - replace (seen ++ x :: l) with ((seen ++ [x]) ++ l)
      by (rewrite <- app_assoc; reflexivity).
    apply IH, scan_step_inv, Hinv.
Qed.

Lemma scan_inv_boundaryEdges (triangulation edgeIndices : list (list Z)) :
  NoDup (boundaryEdges triangulation edgeIndices) /\
  forall e, e ∈ boundaryEdges triangulation edgeIndices
            <-> count_occ Z.eq_dec (incidences triangulation edgeIndices) e = 1.
Proof.
  unfold boundaryEdges.
  assert (Hinit : scan_inv [] (∅, [])).
  { split; [|split]; simpl.
    - intros x. rewrite elem_of_nil. set_solver.
    - constructor.
    - intros x. rewrite elem_of_nil. lia. }
  apply (scan_inv_fold (incidences triangulation edgeIndices)) in Hinit.
  simpl in Hinit. destruct Hinit as (_ & Hnd & HB). split; assumption.
Qed.

(** A single triangle with edge rows 0, 1, 2: all three are on the boundary.
    Two triangles that share the edge of row 1: the other four are. *)
Example boundaryEdges_one_triangle :
  boundaryEdges [[0; 1; 2]]%Z [[0; 1; 2]]%Z = [0; 1; 2]%Z.
Proof. vm_compute. reflexivity. Qed.

Example boundaryEdges_two_triangles :
  boundaryEdges [[0; 1; 2]; [1; 2; 3]]%Z [[0; 1; 2]; [1; 3; 4]]%Z = [0; 2; 3; 4]%Z.
Proof. vm_compute. reflexivity. Qed.

(** C8: the indices [boundEdges] collects, before the signs of the 2-D case
    are set, are exactly the edge indices that occur once among the entries
    [edgeIndices(triangle, edge)] the scan reads: an index read twice or more
    is not returned, an index read once is returned, and none is returned
    twice. *)
Theorem boundEdges_exactly_once
    (getTriangulationEdgeIndices : list (list Z) -> list bar -> list (list Z))
    (triangulation : list (list Z)) (externalEdges : list bar) (e : Z) :
  let edges := if (length externalEdges =? 0)%nat
               then findUniqueEdges triangulation else externalEdges in
  let occurrences :=
    count_occ Z.eq_dec
      (incidences triangulation (getTriangulationEdgeIndices triangulation edges)) e in
  let boundary := boundEdges getTriangulationEdgeIndices triangulation externalEdges in
  (e ∈ boundary <-> occurrences = 1) /\
  (2 <= occurrences -> e ∉ boundary) /\
  NoDup boundary.
Proof.
  intros edges occurrences boundary.
  destruct (scan_inv_boundaryEdges triangulation
              (getTriangulationEdgeIndices triangulation edges)) as [Hnd HB].
  unfold boundary, boundEdges. fold edges.
  split; [apply HB|]. split; [|exact Hnd].
  rewrite HB. fold occurrences. lia.
Qed.

(** ** find_unique_bars *)

Lemma bar_ltb_lt (a b : bar) : bar_ltb a b = true <-> bar_lt a b.
Proof.
  unfold bar_ltb, bar_lt.
  rewrite orb_true_iff, andb_true_iff, !Z.ltb_lt, Z.eqb_eq. tauto.
Qed.

Lemma bar_lt_trans (a b c : bar) : bar_lt a b -> bar_lt b c -> bar_lt a c.
Proof. unfold bar_lt. lia. Qed.

Lemma bar_lt_irrefl (a : bar) : ~ bar_lt a a.
Proof. unfold bar_lt. lia. Qed.

Lemma bar_lt_trichotomy (a b : bar) : ~ bar_lt a b -> ~ bar_lt b a -> a = b.
Proof.
  destruct a as [a1 a2], b as [b1 b2]. unfold bar_lt. simpl.
  intros H1 H2. f_equal; lia.
Qed.

Lemma set_insert_elem (b x : bar) (s : list bar) :
  x ∈ set_insert b s <-> x = b \/ x ∈ s.
Proof.
  induction s as [|y s IH]; simpl.
  - rewrite list_elem_of_singleton, elem_of_nil. tauto.
  - destruct (bar_ltb b y) eqn:Hby; [rewrite !elem_of_cons; tauto|].
    destruct (bar_ltb y b) eqn:Hyb.
    + rewrite !elem_of_cons, IH. tauto.
    + assert (b = y) as ->.
      { apply bar_lt_trichotomy; rewrite <- bar_ltb_lt; congruence. }
      rewrite elem_of_cons. tauto.
Qed.

Lemma set_insert_sorted (b : bar) (s : list bar) :
  StronglySorted bar_lt s -> StronglySorted bar_lt (set_insert b s).
Proof.
  induction s as [|y s IH]; simpl; intros Hs.
  - repeat constructor.
  - apply StronglySorted_inv in Hs as [Hs Hy].
    destruct (bar_ltb b y) eqn:Hby.
    + apply bar_ltb_lt in Hby. constructor; [by constructor|].
      constructor; [exact Hby|].
      eapply Forall_impl; [exact Hy|]. intros z Hz. by eapply bar_lt_trans.
    + destruct (bar_ltb y b) eqn:Hyb; [|by constructor].
      apply bar_ltb_lt in Hyb. constructor; [by apply IH|].
      apply Forall_forall. intros z Hz. apply set_insert_elem in Hz as [->|Hz].
      * exact Hyb.
      * rewrite Forall_forall in Hy. by apply Hy.
Qed.

Lemma sorted_NoDup (s : list bar) : StronglySorted bar_lt s -> NoDup s.
Proof.
  induction 1 as [|x s Hs IH Hx]; constructor; [|exact IH].
  intros Hin. rewrite Forall_forall in Hx. by apply (bar_lt_irrefl x), Hx.
Qed.

(** The bars a simplex contributes, and the set after the inner loop. *)
Lemma insert_loop_elem (cols : nat) (simplex : list Z) (idx : list nat)
    (set : list bar) (x : bar) :
  x ∈ fold_left (fun set i => set_insert (bar_of cols simplex i) set) idx set
  <-> x ∈ set \/ exists i, i ∈ idx /\ x = bar_of cols simplex i.
Proof.
  revert set. induction idx as [|i idx IH]; intros set; simpl.
  - split; [by left|]. intros [Hx|(i & Hi & _)]; [exact Hx|].
    by apply elem_of_nil in Hi.
  - rewrite IH, set_insert_elem. split.
    + intros [[->|Hx]|(j & Hj & ->)].
      * right. exists i. split; [by left|reflexivity].
      * by left.
      * right. exists j. split; [by right|reflexivity].
    + intros [Hx|(j & Hj & ->)]; [by left; right|].
      apply elem_of_cons in Hj as [->|Hj]; [by left; left|].
      right. by exists j.
Qed.

Lemma insert_loop_sorted (cols : nat) (simplex : list Z) (idx : list nat)
    (set : list bar) :
  StronglySorted bar_lt set ->
  StronglySorted bar_lt
    (fold_left (fun set i => set_insert (bar_of cols simplex i) set) idx set).
Proof.
  revert set. induction idx as [|i idx IH]; intros set Hs; simpl; [exact Hs|].
  by apply IH, set_insert_sorted.
Qed.

Lemma outer_loop_elem (cols : nat) (tri : list (list Z)) (set : list bar) (x : bar) :
  x ∈ fold_left
        (fun set simplex =>
           fold_left (fun set i => set_insert (bar_of cols simplex i) set)
                     (seq 0 (cols + 1)) set) tri set
  <-> x ∈ set \/ exists simplex i,
        simplex ∈ tri /\ i < cols + 1 /\ x = bar_of cols simplex i.
Proof.
  revert set. induction tri as [|s tri IH]; intros set; simpl.
  - split; [by left|]. intros [Hx|(s & i & Hs & _)]; [exact Hx|].
    by apply elem_of_nil in Hs.
  - rewrite IH, insert_loop_elem. split.
    + intros [[Hx|(i & Hi & ->)]|(s' & i & Hs' & Hi & ->)].
      * by left.
      * right. exists s, i. apply elem_of_seq in Hi.
        split; [by left|]. split; [lia|reflexivity].
      * right. exists s', i. split; [by right|]. by split.
    + intros [Hx|(s' & i & Hs' & Hi & ->)]; [by left; left|].
      apply elem_of_cons in Hs' as [->|Hs'].
      * left. right. exists i. split; [apply elem_of_seq; lia|reflexivity].
      * right. by exists s', i.
Qed.

Lemma find_unique_bars_elem (cols : nat) (tri : list (list Z)) (x : bar) :
  x ∈ find_unique_bars cols tri
  <-> exists simplex i, simplex ∈ tri /\ i < cols + 1 /\ x = bar_of cols simplex i.
Proof.
  unfold find_unique_bars. rewrite outer_loop_elem, elem_of_nil. tauto.
Qed.

Lemma find_unique_bars_sorted (cols : nat) (tri : list (list Z)) :
  StronglySorted bar_lt (find_unique_bars cols tri).
Proof.
  unfold find_unique_bars.
  assert (Hgen : forall set, StronglySorted bar_lt set ->
            StronglySorted bar_lt
              (fold_left
                 (fun set simplex =>
                    fold_left (fun set i => set_insert (bar_of cols simplex i) set)
                              (seq 0 (cols + 1)) set) tri set)).
  { induction tri as [|s tri IH]; intros set Hs; simpl; [exact Hs|].
    by apply IH, insert_loop_sorted. }
  apply Hgen. constructor.
Qed.

Lemma find_unique_bars_canonical (cols : nat) (tri : list (list Z)) (x : bar) :
  x ∈ find_unique_bars cols tri -> (x.2 <= x.1)%Z.
Proof.
  rewrite find_unique_bars_elem. intros (s & i & _ & _ & ->).
  unfold bar_of, ordered_bar. destruct (_ <? _)%Z eqn:E; simpl; lia.
Qed.

Lemma joins_ordered_bar (u v : Z) (x : bar) :
  (x.2 <= x.1)%Z -> joins u v x = true <-> x = ordered_bar u v.
Proof.
  destruct x as [a b]. unfold joins, ordered_bar. simpl. intros Hab.
  rewrite orb_true_iff, !andb_true_iff, !Z.eqb_eq.
  destruct (v <? u)%Z eqn:E; [apply Z.ltb_lt in E|apply Z.ltb_ge in E];
    (split; [intros [[-> ->]|[-> ->]]; f_equal; lia|intros [= -> ->]; tauto]).
Qed.

Lemma pair_count_absent (u v : Z) (edges : list bar) :
  (forall x, x ∈ edges -> joins u v x = false) -> pair_count u v edges = 0.
Proof.
  unfold pair_count. induction edges as [|x edges IH]; simpl; intros Hx; [reflexivity|].
  rewrite (Hx x) by (by left). apply IH. intros y Hy. apply Hx. by right.
Qed.

Lemma pair_count_NoDup (u v : Z) (edges : list bar) :
  NoDup edges -> (forall x, x ∈ edges -> (x.2 <= x.1)%Z) ->
  pair_count u v edges = if decide (ordered_bar u v ∈ edges) then 1 else 0.
Proof.
  intros Hnd Hcan. induction Hnd as [|x edges Hx Hnd IH].
  - rewrite decide_False by apply not_elem_of_nil. reflexivity.
  - assert (Hcan' : forall y, y ∈ edges -> (y.2 <= y.1)%Z)
      by (intros y Hy; apply Hcan; by right).
    specialize (IH Hcan'). unfold pair_count in *. simpl.
    destruct (joins u v x) eqn:Hj.
    + apply joins_ordered_bar in Hj; [|apply Hcan; by left]. subst x.
      rewrite decide_True by (by left). simpl. rewrite IH.
      by rewrite decide_False.
    + rewrite IH. assert (Hne : x <> ordered_bar u v).
      { intros Heq. apply joins_ordered_bar in Heq; [congruence|].
        apply Hcan. by left. }
      destruct (decide (ordered_bar u v ∈ edges)) as [Hin|Hnin].
      * rewrite decide_True by (by right). reflexivity.
      * rewrite decide_False; [reflexivity|].
        rewrite elem_of_cons. intros [Heq|Hin]; [congruence|contradiction].
Qed.

Lemma pair_count_sym (u v : Z) (edges : list bar) :
  pair_count u v edges = pair_count v u edges.
Proof.
  unfold pair_count. f_equal. apply filter_ext. intros x.
  unfold joins. apply orb_comm.
Qed.

Lemma find_unique_bars_pair_count (cols : nat) (tri : list (list Z)) (u v : Z) :
  pair_count u v (find_unique_bars cols tri)
  = if decide (ordered_bar u v ∈ find_unique_bars cols tri) then 1 else 0.
Proof.
  apply pair_count_NoDup.
  - apply sorted_NoDup, find_unique_bars_sorted.
  - apply find_unique_bars_canonical.
Qed.

Lemma find_unique_bars_adjacent (cols : nat) (tri : list (list Z))
    (simplex : list Z) (i : nat) (u v : Z) :
  simplex ∈ tri -> i < cols + 1 ->
  simplex !! i = Some u -> simplex !! ((i + 1) mod (cols + 1)) = Some v ->
  pair_count u v (find_unique_bars cols tri) = 1.
Proof.
  intros Hs Hi Hu Hv. rewrite find_unique_bars_pair_count.
  rewrite decide_True; [reflexivity|].
  apply find_unique_bars_elem. exists simplex, i.
  split; [exact Hs|]. split; [exact Hi|].
  unfold bar_of, tri_at. by rewrite Hu, Hv.
Qed.

(** The edge extractor on the two triangles [0,1,2] and [1,2,3] that share
    the edge {1,2}: five bars, in the order of the set. *)
Example find_unique_bars_two_triangles :
  find_unique_bars 2 [[0; 1; 2]; [1; 2; 3]]%Z
  = [(1, 0); (2, 0); (2, 1); (3, 1); (3, 2)]%Z.
Proof. reflexivity. Qed.

(** C2, as amended: the edge array of [find_unique_bars] holds no unordered
    pair twice, and every pair of vertices that stand at cyclically adjacent
    positions [i] and [(i + 1) mod (D + 1)] of a simplex row is held exactly
    once; for [D <= 2] these are all the pairs of distinct vertices of the
    row. *)
Theorem find_unique_bars_adjacent_pairs (D : nat) (tri : list (list Z)) :
  let edges := find_unique_bars D tri in
  (forall u v, pair_count u v edges <= 1) /\
  (forall simplex i u v,
     simplex ∈ tri -> i < D + 1 ->
     simplex !! i = Some u -> simplex !! ((i + 1) mod (D + 1)) = Some v ->
     pair_count u v edges = 1) /\
  (D <= 2 ->
   forall simplex u v,
     simplex ∈ tri -> length simplex = D + 1 ->
     u ∈ simplex -> v ∈ simplex -> u <> v ->
     pair_count u v edges = 1).
Proof.
  intros edges. split; [|split].
  - intros u v. unfold edges. rewrite find_unique_bars_pair_count.
    destruct (decide _); lia.
  - intros simplex i u v. apply find_unique_bars_adjacent.
  - intros HD simplex u v Hs Hlen Hu Hv Hne.
    apply list_elem_of_lookup in Hu as [i Hi], Hv as [j Hj].
    pose proof (lookup_lt_Some _ _ _ Hi) as Hi'.
    pose proof (lookup_lt_Some _ _ _ Hj) as Hj'.
    assert (Hij : i <> j) by (intros ->; congruence).
    assert (Hadj : j = (i + 1) mod (D + 1) \/ i = (j + 1) mod (D + 1)).
    { rewrite Hlen in Hi', Hj'.
      destruct D as [|[|[|D]]]; [lia| | |lia];
        destruct i as [|[|[|i]]]; destruct j as [|[|[|j]]];
        try lia; simpl; auto. }
    destruct Hadj as [Hadj|Hadj].
    + apply (find_unique_bars_adjacent D tri simplex i); auto; [lia|].
      by rewrite <- Hadj.
    + unfold edges. rewrite pair_count_sym.
      apply (find_unique_bars_adjacent D tri simplex j); auto; [lia|].
      by rewrite <- Hadj.
Qed.

(** C2 fails as stated: in the tetrahedron [0,1,2,3] the vertices 0 and 2 are
    distinct vertices of one simplex row, and no row of the edge array joins
    them (nor 1 and 3): the loop pairs position [i] with position
    [(i + 1) mod 4] only. *)
Lemma find_unique_bars_misses_diagonal :
  ~ (forall simplex u v,
       simplex ∈ [[0; 1; 2; 3]]%Z -> u ∈ simplex -> v ∈ simplex -> u <> v ->
       pair_count u v (find_unique_bars 3 [[0; 1; 2; 3]]%Z) = 1).
Proof.
  intros Hclaim.
  specialize (Hclaim [0; 1; 2; 3]%Z 0%Z 2%Z).
  assert (Hcount : pair_count 0 2 (find_unique_bars 3 [[0; 1; 2; 3]]%Z) = 0)
    by reflexivity.
  rewrite Hcount in Hclaim. discriminate Hclaim.
  - by left.
  - by left.
  - right; right; by left.
  - lia.
Qed.


(** ** project_points_to_function *)

Section ProjectionProperties.
Context {R : Type} `{RealOps R}.
Variable distance_function : list R -> R.
Variable initial_edge_length : R.
Variable uninitialized : R.

Local Abbreviation eps := (fd_step initial_edge_length).

Lemma axis_step_insert (k n : nat) :
  <[k := eps]> (replicate n rzero) = spec_axis_step eps k n.
Proof.
  apply list_eq. intros j. unfold spec_axis_step.
  rewrite list_lookup_fmap.
  destruct (decide (j < n)) as [Hj|Hj].
  - rewrite lookup_seq_lt by exact Hj. simpl.
    destruct (decide (k = j)) as [->|Hne].
    + rewrite list_lookup_insert_eq by (rewrite length_replicate; exact Hj).
      by rewrite Nat.eqb_refl.
    + rewrite list_lookup_insert_ne by exact Hne.
      rewrite lookup_replicate_2 by exact Hj.
      destruct (Nat.eqb_spec j k); [congruence|reflexivity].
  - rewrite lookup_seq_ge by lia. simpl.
    apply lookup_ge_None. rewrite length_insert, length_replicate. lia.
Qed.

(** The loop over the axes: [deltaX] is all zero again after every pass, and
    the passes over [a, a + n) write the difference quotients into the
    gradient row at these positions and nowhere else. *)
Lemma gradient_loop_spec (p : list R) (dist : R) (n a : nat) (gradient : list R) :
  length gradient = length p -> a + n <= length p ->
  let res := gradient_loop distance_function initial_edge_length p dist (seq a n)
               (replicate (length p) rzero) gradient in
  res.1 = replicate (length p) rzero /\
  length res.2 = length p /\
  forall k,
    res.2 !! k =
    if decide (a <= k < a + n)
    then Some (rdiv (rsub (distance_function
                             (vadd p (spec_axis_step eps k (length p)))) dist) eps)
    else gradient !! k.
Proof.
  revert a gradient. induction n as [|n IH]; intros a gradient Hlen Han; simpl.
  - split; [reflexivity|]. split; [exact Hlen|].
    intros k. rewrite decide_False by lia. reflexivity.
  - unfold gradient_loop in *. simpl.
    rewrite list_insert_insert_eq, insert_replicate.
    set (q := rdiv (rsub (distance_function
                  (vadd p (<[a:=eps]> (replicate (length p) rzero)))) dist) eps).
    destruct (IH (S a) (<[a:=q]> gradient)) as (Hd & Hl & Hk);
      [by rewrite length_insert|lia|].
    split; [exact Hd|]. split; [exact Hl|].
    intros k. rewrite Hk.
    destruct (decide (S a <= k < S a + n)) as [Hin|Hout].
    + rewrite decide_True by lia. reflexivity.
    + destruct (decide (k = a)) as [->|Hne].
      * rewrite decide_True by lia.
        rewrite list_lookup_insert_eq by lia.
        unfold q. by rewrite axis_step_insert.
      * rewrite decide_False by lia.
        by rewrite list_lookup_insert_ne.
Qed.

Lemma gradient_row_spec (p : list R) :
  gradient_row distance_function initial_edge_length uninitialized p
    (distance_function p)
  = spec_gradient distance_function eps p.
Proof.
  unfold gradient_row.
  destruct (gradient_loop_spec p (distance_function p) (length p) 0
              (replicate (length p) uninitialized)) as (_ & Hl & Hk);
    [apply length_replicate|lia|].
  apply list_eq. intros k. rewrite Hk. unfold spec_gradient.
  rewrite list_lookup_fmap.
  destruct (decide (0 <= k < 0 + length p)) as [Hin|Hout].
  - rewrite lookup_seq_lt by lia. reflexivity.
  - rewrite lookup_seq_ge by lia. simpl.
    apply lookup_ge_None. rewrite length_replicate. lia.
Qed.

Lemma project_row_spec (p : list R) :
  project_row p (distance_function p)
    (gradient_row distance_function initial_edge_length uninitialized p
       (distance_function p))
  = spec_projection distance_function initial_edge_length p.
Proof.
  rewrite gradient_row_spec. unfold project_row, spec_projection, vsub, square.
  fold eps. cbv zeta.
  generalize (vsum (map (fun g : R => rmul g g)
                      (spec_gradient distance_function eps p))) as norm2.
  intros norm2.
  generalize (spec_gradient distance_function eps p) as grad.
  generalize (distance_function p) as dist.
  intros dist grad. revert p.
  induction grad as [|g grad IH]; intros [|x p]; simpl; try reflexivity.
  by rewrite IH.
Qed.

(** The loop over the points: the pass at index [point] rewrites that row
    only, from its own content. *)
Lemma project_loop_lookup (outside : list bool) (g : nat -> list R -> list R)
    (n a : nat) (cur : list (list R)) (j : nat) :
  fold_left
    (fun points point =>
       if default false (outside !! point)
       then <[point := g point (default [] (points !! point))]> points
       else points)
    (seq a n) cur !! j
  = if decide (a <= j < a + n)
    then (if default false (outside !! j) then g j <$> cur !! j else cur !! j)
    else cur !! j.
Proof.
  revert a cur. induction n as [|n IH]; intros a cur; simpl.
  - rewrite decide_False by lia. reflexivity.
  - rewrite IH.
    destruct (decide (S a <= j < S a + n)) as [Hin|Hout].
    + rewrite decide_True by lia.
      destruct (default false (outside !! a));
        [rewrite list_lookup_insert_ne by lia|]; reflexivity.
    + destruct (decide (j = a)) as [->|Hne].
      * rewrite decide_True by lia.
        destruct (default false (outside !! a)); [|reflexivity].
        destruct (cur !! a) as [r|] eqn:Hr; simpl.
        -- apply list_lookup_insert_eq. by eapply lookup_lt_Some.
        -- rewrite list_insert_ge; [exact Hr|]. by apply lookup_ge_None.
      * rewrite decide_False by lia.
        destruct (default false (outside !! a));
          [rewrite list_lookup_insert_ne by lia|]; reflexivity.
Qed.

Lemma existsb_id_false (l : list bool) (i : nat) :
  existsb id l = false -> default false (l !! i) = false.
Proof.
  revert i. induction l as [|b l IH]; intros [|i]; simpl; try reflexivity.
  - intros Hb. apply orb_false_iff in Hb as [Hb _]. exact Hb.
  - intros Hb. apply orb_false_iff in Hb as [_ Hb]. by apply IH.
Qed.

(** Every row is rewritten from its own content at the call: it is kept when
    its distance is not greater than zero, and replaced by one projection
    step otherwise. *)
Lemma project_points_lookup (points : list (list R)) (i : nat) (p : list R) :
  points !! i = Some p ->
  project_points_to_function distance_function initial_edge_length uninitialized
    points !! i
  = Some (if rltb rzero (distance_function p)
          then spec_projection distance_function initial_edge_length p
          else p).
Proof.
  intros Hp. unfold project_points_to_function.
  assert (Hout : default false
            (map (fun d => rltb rzero d) (map distance_function points) !! i)
            = rltb rzero (distance_function p)).
  { by rewrite !list_lookup_fmap, Hp. }
  destruct (existsb id _) eqn:Hany.
  - rewrite (project_loop_lookup _
               (fun point q =>
                  project_row q
                    (default rzero (map distance_function points !! point))
                    (gradient_row distance_function initial_edge_length
                       uninitialized q
                       (default rzero (map distance_function points !! point))))).
    rewrite decide_True by (apply lookup_lt_Some in Hp; lia).
    rewrite Hout, Hp. simpl.
    destruct (rltb rzero (distance_function p)); [|reflexivity].
    rewrite list_lookup_fmap, Hp. simpl. by rewrite project_row_spec.
  - apply (existsb_id_false _ i) in Hany. rewrite Hout in Hany.
    by rewrite Hany.
Qed.

Lemma project_loop_length (outside : list bool) (g : nat -> list R -> list R)
    (idx : list nat) (cur : list (list R)) :
  length
    (fold_left
       (fun points point =>
          if default false (outside !! point)
          then <[point := g point (default [] (points !! point))]> points
          else points)
       idx cur)
  = length cur.
Proof.
  revert cur. induction idx as [|k idx IH]; intros cur; simpl; [reflexivity|].
  rewrite IH. destruct (default false _); [apply length_insert|reflexivity].
Qed.

Lemma project_points_length (points : list (list R)) :
  length (project_points_to_function distance_function initial_edge_length
            uninitialized points) = length points.
Proof.
  unfold project_points_to_function. destruct (existsb id _); [|reflexivity].
  apply (project_loop_length _
           (fun point q =>
              project_row q
                (default rzero (map distance_function points !! point))
                (gradient_row distance_function initial_edge_length
                   uninitialized q
                   (default rzero (map distance_function points !! point))))).
Qed.
End ProjectionProperties.

(** ** The relaxation loop *)

Section LoopProperties.
Context {R : Type} `{RealOps R}.
Variable distanceFunction : list R -> R.
Variable elementSizeFunction : list R -> R.
Variable initialPointDistance : R.
Variable dimension : nat.
Variable fixedPoints : list (list R).
Variable createInitialPoints : list (list R).
Variable delaunay : list (list R) -> list (list Z).
Variable pow : R -> R -> R.
Variable maxSteps : nat.
Variable retriangulationThreshold : R.
Variable geometryEvaluationThreshold : R.
Variable pointsMovementThreshold : R.
Variable deltaT : R.
Variable uninitialized : R.

Local Abbreviation step :=
  (iteration distanceFunction elementSizeFunction initialPointDistance dimension
     fixedPoints delaunay pow retriangulationThreshold geometryEvaluationThreshold
     deltaT uninitialized).
Local Abbreviation stop := (stop_test initialPointDistance pointsMovementThreshold).
Local Abbreviation loop :=
  (main_loop distanceFunction elementSizeFunction initialPointDistance dimension
     fixedPoints delaunay pow retriangulationThreshold geometryEvaluationThreshold
     pointsMovementThreshold deltaT uninitialized).

Lemma main_loop_spec (remaining : nat) (st : State R) :
  (loop remaining st).1 <= remaining /\
  (loop remaining st).2 = Nat.iter (loop remaining st).1 step st /\
  (forall k, 0 < k < (loop remaining st).1 -> stop (Nat.iter k step st) = false) /\
  ((loop remaining st).1 < remaining ->
   0 < (loop remaining st).1 /\ stop (loop remaining st).2 = true).
Proof.
  revert st. induction remaining as [|remaining IH]; intros st; simpl.
  - repeat split; try lia; intros; lia.
  - destruct (stop (step st)) eqn:Hstop; simpl.
    + split; [lia|]. split; [reflexivity|]. split; [intros k Hk; lia|].
      intros _. split; [lia|exact Hstop].
    + specialize (IH (step st)).
      destruct (loop remaining (step st)) as [n final] eqn:Hloop. simpl in *.
      destruct IH as (Hle & Hfinal & Hrun & Hearly).
      split; [lia|]. split; [|split].
      * rewrite Hfinal. symmetry. exact (Nat.iter_succ_r n _ step st).
      * intros k Hk. destruct k as [|k]; [lia|].
        rewrite Nat.iter_succ_r. destruct k as [|k]; [exact Hstop|].
        apply Hrun. lia.
      * intros Hlt. destruct Hearly as [Hpos Hs]; [lia|]. split; [lia|exact Hs].
Qed.

(** C6: the loop of [distmesh] runs [n] iterations with [n <= maxSteps].  The
    stop test of an iteration is that the largest movement of a point in this
    step is below [pointsMovementThreshold * h0]: no iteration before the
    last passes it, and when the loop ends before [maxSteps] iterations the
    last one passes it.  In either case [distmesh] returns the points and the
    triangulation of the state the loop ends in. *)
Theorem distmesh_terminates :
  let init := initial_state createInitialPoints delaunay in
  let run := loop maxSteps init in
  let n := run.1 in
  let final := run.2 in
  n <= maxSteps /\
  final = Nat.iter n step init /\
  (forall k, 0 < k < n -> stop (Nat.iter k step init) = false) /\
  (n < maxSteps -> 0 < n /\ stop final = true) /\
  (forall k, 0 < k <= maxSteps -> stop (Nat.iter k step init) = true -> n <= k) /\
  (forall st,
     stop (step st)
     = rltb (displacement (points (step st)) (points st))
            (rmul pointsMovementThreshold initialPointDistance)) /\
  distmesh distanceFunction elementSizeFunction initialPointDistance dimension
    fixedPoints createInitialPoints delaunay pow maxSteps retriangulationThreshold
    geometryEvaluationThreshold pointsMovementThreshold deltaT uninitialized
  = (points final, triangulation final).
Proof.
  intros init run n final.
  destruct (main_loop_spec maxSteps init) as (Hle & Hfinal & Hrun & Hearly).
  fold run in Hle, Hfinal, Hrun, Hearly. fold n in Hle, Hfinal, Hrun, Hearly.
  fold final in Hfinal, Hearly.
  split; [exact Hle|]. split; [exact Hfinal|]. split; [exact Hrun|].
  split; [exact Hearly|]. split; [|split; [|reflexivity]].
  - intros k Hk Hs. destruct (decide (n <= k)) as [|Hgt]; [assumption|].
    rewrite Hrun in Hs by lia. discriminate Hs.
  - intros st. unfold stop_test, iteration, force_phase. simpl.
    unfold retriangulation_phase.
    destruct (retriangulation_test _ _ _); reflexivity.
Qed.

Lemma update_row_lookup_ne (M : list (list R)) (j : Z) (f : list R -> list R)
    (i : nat) :
  Z.of_nat i <> j -> update_row M j f !! i = M !! i.
Proof.
  intros Hne. unfold update_row. destruct (j <? 0)%Z eqn:Hj; [reflexivity|].
  apply list_lookup_alter_ne. apply Z.ltb_ge in Hj. lia.
Qed.

Lemma update_row_length (M : list (list R)) (j : Z) (f : list R -> list R) :
  length (update_row M j f) = length M.
Proof.
  unfold update_row. destruct (j <? 0)%Z; [reflexivity|apply length_alter].
Qed.

(** The integration loop writes no row below [fixedPoints.rows()]. *)
Lemma move_points_fixed (pts : list (list R)) (edges : list bar)
    (force : list (list R)) (i : nat) :
  i < length fixedPoints ->
  move_points fixedPoints deltaT pts edges force !! i = pts !! i.
Proof.
  intros Hi. unfold move_points.
  generalize (zip edges force) as work. intros work. revert pts.
  induction work as [|[e f] work IH]; intros pts; simpl; [reflexivity|].
  rewrite IH.
  destruct (Z.of_nat (length fixedPoints) <=? e.2)%Z eqn:H2;
    destruct (Z.of_nat (length fixedPoints) <=? e.1)%Z eqn:H1;
    try apply Z.leb_le in H1; try apply Z.leb_le in H2;
    rewrite ?update_row_lookup_ne by lia; reflexivity.
Qed.

Lemma move_points_length (pts : list (list R)) (edges : list bar)
    (force : list (list R)) :
  length (move_points fixedPoints deltaT pts edges force) = length pts.
Proof.
  unfold move_points.
  generalize (zip edges force) as work. intros work. revert pts.
  induction work as [|[e f] work IH]; intros pts; simpl; [reflexivity|].
  rewrite IH.
  destruct (_ <=? e.2)%Z; destruct (_ <=? e.1)%Z;
    rewrite ?update_row_length; reflexivity.
Qed.

Lemma retriangulation_phase_points (st : State R) :
  points (retriangulation_phase distanceFunction initialPointDistance dimension
            delaunay retriangulationThreshold geometryEvaluationThreshold st)
  = points st.
Proof.
  unfold retriangulation_phase. destruct (retriangulation_test _ _ _); reflexivity.
Qed.

(** The number of points is the same after an iteration. *)
Lemma iteration_length (st : State R) :
  length (points (step st)) = length (points st).
Proof.
  unfold iteration, force_phase. simpl. unfold projectPointsToBoundary.
  rewrite project_points_length, move_points_length.
  by rewrite retriangulation_phase_points.
Qed.

(** A row below [fixedPoints.rows()] at which the distance function is not
    greater than zero is the same after an iteration, and after any number
    of them. *)
Lemma iteration_keeps_fixed_point (st : State R) (i : nat) (p : list R) :
  i < length fixedPoints ->
  points st !! i = Some p ->
  rltb rzero (distanceFunction p) = false ->
  points (step st) !! i = Some p.
Proof.
  intros Hi Hp Hd. unfold iteration, force_phase. simpl.
  unfold projectPointsToBoundary.
  erewrite project_points_lookup
    by (rewrite move_points_fixed, retriangulation_phase_points by exact Hi;
        exact Hp).
  by rewrite Hd.
Qed.

Lemma iterations_keep_fixed_point (st : State R) (i : nat) (p : list R) (k : nat) :
  i < length fixedPoints ->
  points st !! i = Some p ->
  rltb rzero (distanceFunction p) = false ->
  points (Nat.iter k step st) !! i = Some p.
Proof.
  intros Hi Hp Hd. induction k as [|k IH]; [exact Hp|]. simpl.
  by apply iteration_keeps_fixed_point.
Qed.

(** The mesh [distmesh] returns holds every fixed point that is not outside
    the domain at its initial coordinates. *)
Lemma distmesh_keeps_fixed_point (i : nat) (p : list R) :
  i < length fixedPoints ->
  createInitialPoints !! i = Some p ->
  rltb rzero (distanceFunction p) = false ->
  (distmesh distanceFunction elementSizeFunction initialPointDistance dimension
     fixedPoints createInitialPoints delaunay pow maxSteps retriangulationThreshold
     geometryEvaluationThreshold pointsMovementThreshold deltaT uninitialized).1
  !! i = Some p.
Proof.
  intros Hi Hp Hd. unfold distmesh. simpl.
  destruct (main_loop_spec maxSteps (initial_state createInitialPoints delaunay))
    as (_ & -> & _).
  by apply iterations_keep_fixed_point.
Qed.

(** C1, as amended: in an iteration of the main loop the integration step
    leaves every row below [fixedPoints.rows()] as it is; the projection step
    leaves such a row as it is when the distance function is not greater than
    zero there; so a fixed point that is not outside the domain has the same
    coordinates after the iteration as before, and after any number of
    iterations. *)
Theorem fixed_point_kept (st : State R) (i : nat) (p : list R) :
  i < length fixedPoints ->
  points st !! i = Some p ->
  rltb rzero (distanceFunction p) = false ->
  (forall edges force,
     move_points fixedPoints deltaT (points st) edges force !! i = Some p) /\
  projectPointsToBoundary distanceFunction initialPointDistance uninitialized
    (points st) !! i = Some p /\
  points (step st) !! i = Some p /\
  (forall k, points (Nat.iter k step st) !! i = Some p).
Proof.
  intros Hi Hp Hd. split; [|split; [|split]].
  - intros edges force. by rewrite move_points_fixed.
  - unfold projectPointsToBoundary.
    rewrite (project_points_lookup _ _ _ _ _ _ Hp). by rewrite Hd.
  - by apply iteration_keeps_fixed_point.
  - intros k. by apply iterations_keep_fixed_point.
Qed.


Lemma zip_with_map_map {A B C D : Type} (f : B -> C -> D) (g : A -> B)
    (h : A -> C) (l : list A) :
  zip_with f (map g l) (map h l) = map (fun x => f (g x) (h x)) l.
Proof. induction l as [|x l IH]; simpl; [reflexivity|by rewrite IH]. Qed.

Lemma selectMasked_filter {A : Type} (f : A -> bool) (l : list A) :
  selectMaskedArrayElements l (map f l) = List.filter f l.
Proof.
  induction l as [|x l IH]; simpl; [reflexivity|].
  rewrite IH. reflexivity.
Qed.

(** The accumulation by columns computes the centroid of every row. *)
Lemma circumcenter_rows (pts : list (list R)) (tri : list (list Z)) :
  (forall s, s ∈ tri -> length s = ncols tri) ->
  circumcenter dimension pts tri = map (centroid dimension pts) tri.
Proof.
  intros Hrect. unfold circumcenter.
  set (n := ncols tri) in *.
  set (add := fun (acc : list R) (vertex : Z) =>
                vadd acc (map (fun x => rdiv x (of_int (Z.of_nat n)))
                              (row_at pts vertex))).
  assert (Hk : forall k, k <= n ->
            fold_left
              (fun acc point =>
                 zip_with vadd acc
                   (map (map (fun x => rdiv x (of_int (Z.of_nat n))))
                      (selectIndexedArrayElements pts
                         (map (fun s => tri_at s point) tri))))
              (seq 0 k) (replicate (length tri) (replicate dimension rzero))
            = map (fun s => fold_left add (take k s) (replicate dimension rzero)) tri).
  { induction k as [|k IH]; intros Hle.
    - simpl. clear. induction tri as [|s tri IH]; simpl; [reflexivity|].
      by rewrite IH.
    - rewrite seq_S, fold_left_app, IH by lia. simpl.
      unfold selectIndexedArrayElements. rewrite !List.map_map.
      rewrite zip_with_map_map. apply map_ext_in. intros s Hs.
      apply list_elem_of_In, Hrect in Hs.
      destruct (lookup_lt_is_Some_2 s k) as [v Hv]; [lia|].
      rewrite (take_S_r _ _ _ Hv), fold_left_app. simpl.
      unfold tri_at. rewrite Hv. reflexivity. }
  rewrite Hk by lia. apply map_ext_in. intros s Hs.
  apply list_elem_of_In, Hrect in Hs.
  rewrite firstn_all2 by lia. unfold centroid, add. by rewrite Hs.
Qed.

(** C4: when the displacement test of the loop fires, the simplex array
    becomes the Delaunay simplices whose centroid [c] has
    [distanceFunction(c) < -geometryEvaluationThreshold * h0], in their
    order, all others being dropped; the edge array is the edge extractor's
    result on the simplices kept, and the snapshot is the current points,
    which are not changed. *)
Theorem retriangulation_keeps_inside (st : State R) :
  retriangulation_test initialPointDistance retriangulationThreshold st = true ->
  (forall s, s ∈ delaunay (points st) -> length s = ncols (delaunay (points st))) ->
  let bound := rmul (rneg geometryEvaluationThreshold) initialPointDistance in
  let inside := fun s =>
    rltb (distanceFunction (centroid dimension (points st) s)) bound in
  let st' := retriangulation_phase distanceFunction initialPointDistance dimension
               delaunay retriangulationThreshold geometryEvaluationThreshold st in
  triangulation st' = List.filter inside (delaunay (points st)) /\
  (forall s, s ∈ triangulation st' <->
             s ∈ delaunay (points st) /\ inside s = true) /\
  edgeIndices st' = Some (findUniqueEdges (triangulation st')) /\
  retriangulationCriterionBuffer st' = points st /\
  points st' = points st.
Proof.
  intros Htest Hrect bound inside st'.
  assert (Htri : triangulation st' = List.filter inside (delaunay (points st))).
  { unfold st', retriangulation_phase. rewrite Htest. simpl.
    rewrite (circumcenter_rows _ _ Hrect). unfold inside_mask.
    rewrite !List.map_map. exact (selectMasked_filter inside (delaunay (points st))). }
  split; [exact Htri|]. split; [|split; [|split]].
  - intros s. rewrite Htri, !list_elem_of_In. apply filter_In.
  - unfold st', retriangulation_phase. rewrite Htest. reflexivity.
  - unfold st', retriangulation_phase. rewrite Htest. reflexivity.
  - apply retriangulation_phase_points.
Qed.


(** The length, the size and the force of the edge in row [k] of the edge
    array. *)
Lemma edge_lookup (pts : list (list R)) (edges : list bar) (k : nat) (e : bar) :
  edges !! k = Some e ->
  edgeLength pts edges !! k
  = Some (row_norm (vsub (row_at pts e.1) (row_at pts e.2))) /\
  desiredElementSize elementSizeFunction pts edges !! k
  = Some (elementSizeFunction
            (vscale lit_0_5 (vadd (row_at pts e.1) (row_at pts e.2)))).
Proof.
  intros He. unfold edgeLength, edgeVector, desiredElementSize,
    selectIndexedArrayElements.
  rewrite !list_lookup_fmap, !lookup_zip_with, !list_lookup_fmap, He.
  split; reflexivity.
Qed.

Lemma forceMagnitude_lookup (pts : list (list R)) (edges : list bar) (k : nat)
    (e : bar) :
  edges !! k = Some e ->
  let len := row_norm (vsub (row_at pts e.1) (row_at pts e.2)) in
  let size := elementSizeFunction
                (vscale lit_0_5 (vadd (row_at pts e.1) (row_at pts e.2))) in
  let l0 := rmul (rmul size (bias dimension pow))
                 (scale dimension pow (edgeLength pts edges)
                    (desiredElementSize elementSizeFunction pts edges)) in
  desiredEdgeLength elementSizeFunction dimension pow pts edges !! k = Some l0 /\
  forceMagnitude elementSizeFunction dimension pow pts edges !! k
  = Some (rmax (rdiv (rsub l0 len) len) rzero).
Proof.
  intros He len size l0.
  destruct (edge_lookup pts edges k e He) as [Hlen Hsize].
  assert (Hl0 : desiredEdgeLength elementSizeFunction dimension pow pts edges !! k
                = Some l0).
  { unfold desiredEdgeLength. rewrite list_lookup_fmap, Hsize. reflexivity. }
  split; [exact Hl0|].
  unfold forceMagnitude. rewrite lookup_zip_with, Hl0, Hlen. reflexivity.
Qed.

End LoopProperties.

(** ** binary64 facts *)

Lemma rzero_float : rzero (R:=float) = 0%float.
Proof. reflexivity. Qed.

(** [d <= 0] excludes [0 < d]. *)
Lemma float_leb_zero_not_gt (d : float) :
  PrimFloat.leb d 0 = true -> PrimFloat.ltb 0 d = false.
Proof.
  rewrite leb_spec, ltb_spec.
  change (Prim2SF 0) with (S754_zero false).
  destruct (Prim2SF d) as [s|s| |s m e]; simpl; try discriminate; try reflexivity;
    destruct s; simpl; (discriminate || reflexivity).
Qed.


Lemma float_finite_SF (x : float) :
  is_finite x = true ->
  (exists s, Prim2SF x = S754_zero s) \/ (exists s m e, Prim2SF x = S754_finite s m e).
Proof.
  unfold is_finite, is_nan, is_infinity. rewrite !eqb_spec, abs_spec.
  destruct (Prim2SF x) as [s|s| |s m e]; simpl; intros Hx; eauto.
  - destruct s; discriminate Hx.
  - discriminate Hx.
Qed.

Lemma float_sub_infinity (x : float) :
  is_finite x = true -> (x - infinity)%float = neg_infinity.
Proof.
  intros Hx. rewrite <- (SF2Prim_Prim2SF (x - infinity)), sub_spec.
  destruct (float_finite_SF x Hx) as [[s ->]|(s & m & e & ->)]; reflexivity.
Qed.

Lemma float_lt_infinity (t : float) :
  is_finite t = true -> PrimFloat.ltb t infinity = true.
Proof.
  intros Ht. rewrite ltb_spec.
  destruct (float_finite_SF t Ht) as [[s ->]|(s & m & e & ->)]; reflexivity.
Qed.

Lemma vsum_replicate_infinity (n : nat) :
  0 < n -> vsum (replicate n infinity) = infinity.
Proof.
  destruct n as [|n]; [lia|]. intros _. simpl.
  induction n as [|n IH]; simpl; [reflexivity|exact IH].
Qed.

Lemma square_sub_infinity (p : list float) :
  Forall (fun x => is_finite x = true) p ->
  map (fun x => x * x)%float (zip_with PrimFloat.sub p (replicate (length p) infinity))
  = replicate (length p) infinity.
Proof.
  induction 1 as [|x p Hx Hfin IH]; simpl; [reflexivity|].
  rewrite IH, (float_sub_infinity x Hx). reflexivity.
Qed.

(** The distance of a row with finite coordinates to a row of infinities. *)
Lemma row_norm_to_infinity (p : list float) :
  p <> [] -> Forall (fun x => is_finite x = true) p ->
  row_norm (vsub p (replicate (length p) INFINITY)) = infinity.
Proof.
  intros Hne Hfin.
  change (row_norm (vsub p (replicate (length p) INFINITY)))
    with (PrimFloat.sqrt
            (vsum (map (fun x => x * x)%float
                     (zip_with PrimFloat.sub p (replicate (length p) infinity))))).
  rewrite (square_sub_infinity p Hfin), vsum_replicate_infinity; [reflexivity|].
  destruct p; [congruence|simpl; lia].
Qed.

Lemma maxCoeff_all_infinity (v : list float) :
  v <> [] -> Forall (fun x => x = infinity) v -> maxCoeff v = infinity.
Proof.
  intros Hne Hall. destruct Hall as [|x v -> Hall]; [congruence|]. clear Hne.
  simpl. induction Hall as [|y v -> Hall IH]; simpl; [reflexivity|exact IH].
Qed.

(** Signs of the results of the operations. *)

Lemma iter_pos_invariant {A : Type} (P : A -> Prop) (f : A -> A) :
  (forall x, P x -> P (f x)) -> forall n x, P x -> P (iter_pos f n x).
Proof.
  intros Hf. induction n as [n IH|n IH|]; intros x Hx; simpl; auto.
Qed.

Lemma shr_1_nonneg (mrs : shr_record) :
  (0 <= shr_m mrs)%Z -> (0 <= shr_m (shr_1 mrs))%Z.
Proof.
  destruct mrs as [m r s]. simpl. destruct m as [|[p|p|]|p]; simpl; lia.
Qed.

Lemma shr_fexp_nonneg (m e : Z) (l : location) :
  (0 <= m)%Z -> (0 <= shr_m (shr_fexp prec emax m e l).1)%Z.
Proof.
  intros Hm. unfold shr_fexp, shr.
  assert (H0 : (0 <= shr_m (shr_record_of_loc m l))%Z).
  { destruct l as [|[]]; simpl; exact Hm. }
  destruct (fexp prec emax (Zdigits2 m + e) - e)%Z; simpl; try exact H0.
  apply (iter_pos_invariant (fun mrs => (0 <= shr_m mrs)%Z));
    [apply shr_1_nonneg|exact H0].
Qed.

Lemma round_nearest_even_nonneg (m : Z) (l : location) :
  (0 <= m)%Z -> (0 <= round_nearest_even m l)%Z.
Proof.
  intros Hm. destruct l as [|[]]; simpl; try lia. destruct (Z.even m); lia.
Qed.

Lemma binary_round_aux_signed (s : bool) (m e : Z) (l : location) :
  (0 <= m)%Z -> SF_signed s (binary_round_aux prec emax s m e l).
Proof.
  intros Hm. unfold binary_round_aux.
  pose proof (shr_fexp_nonneg m e l Hm) as H1.
  destruct (shr_fexp prec emax m e l) as [mrs' e']. simpl in H1.
  pose proof (shr_fexp_nonneg _ e' loc_Exact
                (round_nearest_even_nonneg _ (loc_of_shr_record mrs') H1)) as H2.
  destruct (shr_fexp prec emax _ e' loc_Exact) as [mrs'' e'']. simpl in H2.
  destruct (shr_m mrs'') as [|p|p]; simpl; [reflexivity| |lia].
  destruct (e'' <=? emax - prec)%Z; reflexivity.
Qed.

Lemma binary_round_signed (s : bool) (m : positive) (e : Z) :
  SF_signed s (binary_round prec emax s m e).
Proof.
  unfold binary_round. destruct (shl_align m e _) as [mz ez].
  apply binary_round_aux_signed. lia.
Qed.

Lemma binary_normalize_nonpos (m e : Z) (szero : bool) :
  (m <= 0)%Z -> SF_nonpos (binary_normalize prec emax m e szero).
Proof.
  intros Hm. destruct m as [|p|p]; simpl; [exact I|lia|].
  pose proof (binary_round_signed true p e) as Hs.
  destruct (binary_round prec emax true p e); simpl in *; auto.
Qed.

Lemma SFdiv_nonpos (x : spec_float) (m : positive) (e : Z) :
  SF_nonpos x -> SF_nonpos (SFdiv prec emax x (S754_finite false m e)).
Proof.
  destruct x as [s|s| |s mx ex]; simpl; intros Hx; try exact I; try contradiction.
  - subst s. reflexivity.
  - subst s. simpl.
    destruct (SFdiv_core_binary prec emax (Z.pos mx) ex (Z.pos m) e)
      as [[mz ez] lz] eqn:Hcore.
    assert (Hmz : (0 <= mz)%Z).
    { unfold SFdiv_core_binary in Hcore.
      set (m' := match (ex - e - _)%Z with Z0 => _ | Zpos _ => _ | Zneg _ => _ end)
        in Hcore.
      assert (Hm' : (0 <= m')%Z).
      { unfold m'. destruct (ex - e - _)%Z; try lia. apply Z.shiftl_nonneg. lia. }
      pose proof (Z_div_mod m' (Z.pos m) ltac:(lia)) as Hdm.
      destruct (Z.div_eucl m' (Z.pos m)) as [q r]. injection Hcore as <- _ _.
      destruct Hdm as [Heq Hr]. nia. }
    pose proof (binary_round_aux_signed true mz ez lz Hmz) as Hs.
    destruct (binary_round_aux prec emax true mz ez lz); simpl in *; auto.
Qed.

Lemma digits2_pos_bounds (m : positive) :
  (2 ^ (Z.pos (digits2_pos m) - 1) <= Z.pos m < 2 ^ Z.pos (digits2_pos m))%Z.
Proof.
  induction m as [m IH|m IH|]; simpl digits2_pos.
  - rewrite Pos2Z.inj_succ.
    replace (Z.succ (Z.pos (digits2_pos m)) - 1)%Z
      with (Z.succ (Z.pos (digits2_pos m) - 1))%Z by lia.
    rewrite !Z.pow_succ_r by lia. lia.
  - rewrite Pos2Z.inj_succ.
    replace (Z.succ (Z.pos (digits2_pos m)) - 1)%Z
      with (Z.succ (Z.pos (digits2_pos m) - 1))%Z by lia.
    rewrite !Z.pow_succ_r by lia. lia.
  - simpl. lia.
Qed.

Lemma iter_xO_double (m d : positive) : (2 * Z.pos m <= Z.pos (Pos.iter xO m d))%Z.
Proof.
  induction d as [|d IH] using Pos.peano_ind.
  - simpl. lia.
  - rewrite Pos.iter_succ. lia.
Qed.

(** Of two valid positive finite numbers, the one with the smaller exponent
    has the smaller mantissa once the other is shifted to its exponent. *)
Lemma bounded_mantissa_lt (m1 m2 : positive) (e1 e2 : Z) :
  bounded prec emax m1 e1 = true -> bounded prec emax m2 e2 = true ->
  (e1 < e2)%Z -> forall d, (Z.pos m1 < Z.pos (Pos.iter xO m2 d))%Z.
Proof.
  unfold bounded, canonical_mantissa, fexp, emin.
  rewrite !andb_true_iff, !Z.eqb_eq. intros [H1 _] [H2 _] He d.
  pose proof (digits2_pos_bounds m1) as B1.
  pose proof (digits2_pos_bounds m2) as B2.
  pose proof (iter_xO_double m2 d) as Hd.
  assert (D2 : Z.pos (digits2_pos m2) = prec) by lia.
  assert (D1 : (Z.pos (digits2_pos m1) <= prec)%Z) by lia.
  rewrite D2 in B2.
  assert (Hp : (2 ^ Z.pos (digits2_pos m1) <= 2 ^ prec)%Z)
    by (apply Z.pow_le_mono_r; lia).
  change (2 ^ (prec - 1))%Z with 4503599627370496%Z in B2.
  change (2 ^ prec)%Z with 9007199254740992%Z in *.
  lia.
Qed.

Lemma SFsub_nonpos (x : spec_float) (m : positive) (e : Z) :
  valid_binary x = true ->
  bounded prec emax m e = true ->
  SFleb x (S754_finite false m e) = true ->
  SF_nonpos (SFsub prec emax x (S754_finite false m e)).
Proof.
  intros Hvx Hv Hle. destruct x as [s|s| |s mx ex]; simpl in *.
  - reflexivity.
  - destruct s; [reflexivity|discriminate Hle].
  - discriminate Hle.
  - apply binary_normalize_nonpos.
    destruct s; simpl; [lia|].
    unfold SFleb, SFcompare in Hle.
    destruct (ex ?= e)%Z eqn:Hcmp; try discriminate Hle.
    + apply Z.compare_eq in Hcmp. subst ex.
      replace (IntDef.Z.min e e) with e by (symmetry; apply Z.min_id).
      unfold shl_align. rewrite Z.sub_diag. simpl.
      assert (Hm : (Z.pos mx <= Z.pos m)%Z).
      { unfold Z.le. simpl. unfold Pos.compare.
        destruct (Pos.compare_cont Eq mx m); congruence. }
      lia.
    + assert (Hlt : (ex < e)%Z) by exact Hcmp.
      replace (IntDef.Z.min ex e) with ex by (symmetry; apply Z.min_l; lia).
      unfold shl_align at 1. rewrite Z.sub_diag. simpl.
      unfold shl_align. destruct (ex - e)%Z as [|p|p] eqn:Hd; try lia. simpl.
      pose proof (bounded_mantissa_lt mx m ex e Hvx Hv Hlt p). lia.
Qed.

Lemma float_pos_finite_SF (x : float) :
  is_finite x = true -> PrimFloat.ltb 0 x = true ->
  exists m e, Prim2SF x = S754_finite false m e.
Proof.
  unfold is_finite, is_nan, is_infinity. rewrite ltb_spec, !eqb_spec, abs_spec.
  change (Prim2SF 0) with (S754_zero false).
  destruct (Prim2SF x) as [s|s| |s m e]; simpl; intros Hf Hp; try discriminate.
  - destruct s; discriminate.
  - destruct s; [discriminate|eauto].
Qed.

(** [std::max(v, 0.0)] is zero when [v] is not greater than zero. *)
Lemma float_max_nonpos (v : float) :
  SF_nonpos (Prim2SF v) -> PrimFloat.eqb (rmax v 0%float) 0 = true.
Proof.
  intros Hv. unfold rmax. change (rltb v 0%float) with (PrimFloat.ltb v 0).
  rewrite ltb_spec. change (Prim2SF 0) with (S754_zero false).
  destruct (Prim2SF v) as [s|s| |s m e] eqn:E; simpl in *; try contradiction.
  - rewrite eqb_spec, E. reflexivity.
  - subst s. reflexivity.
  - subst s. reflexivity.
Qed.

(** The force of an edge at least as long as desired, of positive finite
    length. *)
Lemma float_force_nonpos (l0 len : float) :
  is_finite len = true -> PrimFloat.ltb 0 len = true ->
  PrimFloat.leb l0 len = true ->
  PrimFloat.eqb (rmax ((l0 - len) / len)%float 0%float) 0 = true.
Proof.
  intros Hfin Hpos Hle. apply float_max_nonpos.
  rewrite div_spec, sub_spec.
  destruct (float_pos_finite_SF len Hfin Hpos) as (m & e & Hlen).
  pose proof (Prim2SF_valid len) as Hv. rewrite Hlen in Hv. simpl in Hv.
  rewrite leb_spec, Hlen in Hle. rewrite Hlen.
  apply SFdiv_nonpos, SFsub_nonpos; [apply Prim2SF_valid|exact Hv|exact Hle].
Qed.

(** The force of an edge of length zero with a positive desired length. *)
Lemma float_force_zero_length (l0 : float) :
  PrimFloat.ltb 0 l0 = true ->
  rmax ((l0 - 0) / 0)%float 0%float = infinity.
Proof.
  intros Hpos. unfold rmax.
  assert (Hq : ((l0 - 0) / 0)%float = infinity).
  { rewrite <- (SF2Prim_Prim2SF ((l0 - 0) / 0)%float), div_spec, sub_spec.
    rewrite ltb_spec in Hpos. revert Hpos.
    change (Prim2SF 0) with (S754_zero false).
    destruct (Prim2SF l0) as [s|s| |s m e]; simpl; try discriminate;
      destruct s; simpl; (discriminate || reflexivity). }
  rewrite Hq. reflexivity.
Qed.

(** The projection step with a gradient that is zero in every component:
    every coordinate becomes a NaN, whatever the distance and the point. *)
Lemma float_project_zero_gradient (x dist : float) :
  (x - (dist * 0) / 0)%float = nan.
Proof.
  rewrite <- (SF2Prim_Prim2SF (x - (dist * 0) / 0)%float).
  rewrite sub_spec, div_spec, mul_spec.
  change (Prim2SF 0) with (S754_zero false).
  destruct (Prim2SF dist) as [s|s| |s m e], (Prim2SF x) as [s'|s'| |s' m' e'];
    reflexivity.
Qed.

(** ** The projection on binary64 *)

(** C3: a point whose distance is at most zero is kept by the projector; a
    point with distance [d > 0] is replaced by [p - d * grad / |grad|^2],
    where [grad[k] = (distanceField(p + eps * e_k) - d) / eps] and
    [eps = sqrt(machine epsilon) * h0]; the step is taken once, and the array
    keeps its number of rows. *)
Theorem project_points_formula (distanceField : list float -> float)
    (h0 uninitialized : float) (pts : list (list float)) (i : nat)
    (p : list float) :
  pts !! i = Some p ->
  let projected := project_points_to_function distanceField h0 uninitialized pts in
  (PrimFloat.leb (distanceField p) 0 = true -> projected !! i = Some p) /\
  (PrimFloat.ltb 0 (distanceField p) = true ->
   projected !! i = Some (spec_projection distanceField h0 p)) /\
  length projected = length pts.
Proof.
  intros Hp projected. unfold projected.
  rewrite (project_points_lookup _ _ _ _ _ _ Hp), rzero_float.
  split; [|split].
  - intros Hd. apply float_leb_zero_not_gt in Hd.
    change (rltb 0%float (distanceField p)) with (PrimFloat.ltb 0 (distanceField p)).
    by rewrite Hd.
  - intros Hd.
    change (rltb 0%float (distanceField p)) with (PrimFloat.ltb 0 (distanceField p)).
    by rewrite Hd.
  - apply project_points_length.
Qed.

(** The hypothesis of [project_points_formula] holds of the point 5 among the
    points 5 and 1 of the line; its distance to the segment [0, 4] is 1, and
    the step takes it to 4. *)
Lemma project_points_formula_witness :
  [[5]; [1]]%float !! 0 = Some [5%float] /\
  PrimFloat.ltb 0 (segment_distance [5%float]) = true /\
  project_points_to_function segment_distance 1%float 0%float [[5]; [1]]%float !! 0
  = Some (spec_projection segment_distance 1%float [5%float]) /\
  spec_projection segment_distance 1%float [5%float] = [4%float].
Proof.
  split; [reflexivity|]. split; [reflexivity|]. split; [|reflexivity].
  exact (proj1 (proj2 (project_points_formula segment_distance 1%float 0%float
                         [[5]; [1]]%float 0 [5%float] eq_refl)) eq_refl).
Defined.

(** ** The first iteration on binary64 *)

(** C10: when the run starts from at least one point, every point has at
    least one coordinate and finite coordinates, and the product
    [retriangulationThreshold * h0] is finite, the displacement test of the
    first iteration holds, the snapshot being infinite in every entry; so the
    edge array, unassigned when the loop is entered, is the edge extractor's
    result on the simplices kept when the force computation of that iteration
    reads it. *)
Theorem first_iteration_retriangulates (distanceFunction : list float -> float)
    (initialPointDistance : float) (dimension : nat)
    (createInitialPoints : list (list float))
    (delaunay : list (list float) -> list (list Z))
    (retriangulationThreshold geometryEvaluationThreshold : float) :
  createInitialPoints <> [] ->
  Forall (fun p => p <> [] /\ Forall (fun x => is_finite x = true) p)
         createInitialPoints ->
  is_finite (retriangulationThreshold * initialPointDistance) = true ->
  let init := initial_state createInitialPoints delaunay in
  let st := retriangulation_phase distanceFunction initialPointDistance dimension
              delaunay retriangulationThreshold geometryEvaluationThreshold init in
  edgeIndices init = None /\
  displacement (points init) (retriangulationCriterionBuffer init) = infinity /\
  retriangulation_test initialPointDistance retriangulationThreshold init = true /\
  st = retriangulate distanceFunction initialPointDistance dimension delaunay
         geometryEvaluationThreshold init /\
  edgeIndices st = Some (findUniqueEdges (triangulation st)).
Proof.
  intros Hne Hfin Hthr init st.
  assert (Hdisp : displacement (points init) (retriangulationCriterionBuffer init)
                  = infinity).
  { unfold init, initial_state, displacement. simpl.
    rewrite <- (map_id createInitialPoints) at 1.
    rewrite zip_with_map_map, List.map_map.
    apply maxCoeff_all_infinity.
    - destruct createInitialPoints; [congruence|discriminate].
    - apply Forall_map. eapply Forall_impl; [exact Hfin|].
      intros p [Hp Hx]. simpl. by apply row_norm_to_infinity. }
  assert (Htest : retriangulation_test initialPointDistance
                    retriangulationThreshold init = true).
  { unfold retriangulation_test. rewrite Hdisp.
    exact (float_lt_infinity _ Hthr). }
  split; [reflexivity|]. split; [exact Hdisp|]. split; [exact Htest|].
  unfold st, retriangulation_phase. rewrite Htest. split; reflexivity.
Qed.

(** The hypotheses of [first_iteration_retriangulates] hold of the run from
    the points 0, 1, 4 of the line. *)
Lemma first_iteration_retriangulates_witness :
  is_finite (0x1.999999999999ap-4 * 1)%float = true /\
  retriangulation_test 1%float 0x1.999999999999ap-4%float
    (initial_state [[0]; [1]; [4]]%float two_segments) = true /\
  edgeIndices
    (retriangulation_phase segment_distance 1%float 1 two_segments
       0x1.999999999999ap-4%float 0x1.0624dd2f1a9fcp-10%float
       (initial_state [[0]; [1]; [4]]%float two_segments))
  = Some [(1, 0); (2, 1)]%Z.
Proof.
  split; [reflexivity|].
  assert (Hne : [[0]; [1]; [4]]%float <> []) by discriminate.
  assert (Hfin : Forall (fun p : list float =>
                           p <> [] /\ Forall (fun x => is_finite x = true) p)
                        [[0]; [1]; [4]]%float).
  { repeat constructor; discriminate. }
  destruct (first_iteration_retriangulates segment_distance 1%float 1
              [[0]; [1]; [4]]%float two_segments 0x1.999999999999ap-4%float
              0x1.0624dd2f1a9fcp-10%float Hne Hfin eq_refl)
    as (_ & _ & Htest & _ & Hedges).
  split; [exact Htest|]. rewrite Hedges. reflexivity.
Defined.

(** ** The force law on binary64 *)

(** C5: in dimension [1 <= D < 2^32] the force magnitude of every edge is
    [max((L0 - length) / length, 0)] with
    [L0 = sizeField(midpoint) * (1 + 0.4 / 2^(D-1)) *
          (sum(length^D) / sum(L0_raw^D))^(1/D)];
    an edge of positive finite length that is at least [L0] has a force
    magnitude equal to zero. *)
Theorem force_law (elementSizeFunction : list float -> float) (dimension : nat)
    (pow : float -> float -> float) (pts : list (list float))
    (edges : list bar) (k : nat) (e : bar) :
  1 <= dimension -> (Z.of_nat dimension < 2 ^ 32)%Z ->
  edges !! k = Some e ->
  let a := row_at pts e.1 in
  let b := row_at pts e.2 in
  let length := PrimFloat.sqrt (vsum (map (fun c => c * c)%float (vsub a b))) in
  let size := elementSizeFunction (vscale 0x1p-1%float (vadd a b)) in
  let D := float_of_int (Z.of_nat dimension) in
  let lengths := edgeLength pts edges in
  let sizes := desiredElementSize elementSizeFunction pts edges in
  let L0 :=
    (size * (1 + 0x1.999999999999ap-2 / pow 2 (float_of_int (Z.of_nat dimension - 1)))
     * pow (vsum (map (fun l => pow l D) lengths) / vsum (map (fun s => pow s D) sizes))
           (1 / D))%float in
  let force := rmax ((L0 - length) / length)%float 0%float in
  lengths !! k = Some length /\
  sizes !! k = Some size /\
  desiredEdgeLength elementSizeFunction dimension pow pts edges !! k = Some L0 /\
  forceMagnitude elementSizeFunction dimension pow pts edges !! k = Some force /\
  (is_finite length = true -> PrimFloat.ltb 0 length = true ->
   PrimFloat.leb L0 length = true -> PrimFloat.eqb force 0 = true).
Proof.
  intros Hd1 Hd2 He a b length size D lengths sizes L0 force.
  destruct (edge_lookup elementSizeFunction pts edges k e He) as [Hlen Hsize].
  destruct (forceMagnitude_lookup elementSizeFunction dimension pow pts edges k e He)
    as [Hl0 Hforce].
  assert (Hbias : bias dimension pow
                  = (1 + 0x1.999999999999ap-2
                         / pow 2 (float_of_int (Z.of_nat dimension - 1)))%float).
  { unfold bias. rewrite Z.mod_small by lia. reflexivity. }
  rewrite Hbias in Hl0, Hforce.
  split; [exact Hlen|]. split; [exact Hsize|]. split; [exact Hl0|].
  split; [exact Hforce|].
  intros Hfin Hpos Hle. unfold force. by apply float_force_nonpos.
Qed.

(** The hypotheses of [force_law] hold of the edge between the points 1 and 4
    in the mesh of the points 0, 1, 4 of the line with unit size function:
    its length is 3, the desired length is 2.8 and the force is zero. *)
Lemma force_law_witness :
  [(1, 0); (2, 1)]%Z !! 1 = Some (2, 1)%Z /\
  edgeLength [[0]; [1]; [4]]%float [(1, 0); (2, 1)]%Z !! 1 = Some 3%float /\
  desiredEdgeLength unit_size 1 pow_1d [[0]; [1]; [4]]%float [(1, 0); (2, 1)]%Z !! 1
  = Some 0x1.6666666666666p+1%float /\
  PrimFloat.leb 0x1.6666666666666p+1 3 = true /\
  forceMagnitude unit_size 1 pow_1d [[0]; [1]; [4]]%float [(1, 0); (2, 1)]%Z !! 1
  = Some 0%float.
Proof.
  pose proof (force_law unit_size 1 pow_1d [[0]; [1]; [4]]%float
                [(1, 0); (2, 1)]%Z 1 (2, 1)%Z (le_n 1) eq_refl eq_refl) as Hlaw.
  cbv zeta in Hlaw. destruct Hlaw as (Hlen & _ & Hl0 & Hforce & Hzero).
  pose proof (Hzero eq_refl eq_refl eq_refl) as Hz.
  split; [reflexivity|]. split; [exact Hlen|]. split; [exact Hl0|].
  split; [reflexivity|exact Hforce].
Defined.

(** ** Divisions by zero *)

(** C7, as amended: no division of the relaxation is guarded.  The force
    magnitude divides by the length of the edge as computed, and the
    projection by the sum of the squares of the gradient as computed; an edge
    of length zero with a positive desired length gets the force magnitude
    +infinity, and a point outside the domain whose difference quotients are
    all zero gets a NaN in every coordinate.  Neither stops the run. *)
Theorem division_by_zero_unguarded
    (elementSizeFunction : list float -> float) (dimension : nat)
    (pow : float -> float -> float) (pts : list (list float)) (edges : list bar)
    (k : nat) (l0 : float)
    (distanceFunction : list float -> float) (h0 uninitialized : float)
    (i : nat) (p : list float) :
  desiredEdgeLength elementSizeFunction dimension pow pts edges !! k = Some l0 ->
  edgeLength pts edges !! k = Some 0%float ->
  PrimFloat.ltb 0 l0 = true ->
  pts !! i = Some p ->
  PrimFloat.ltb 0 (distanceFunction p) = true ->
  spec_gradient distanceFunction (fd_step h0) p = replicate (length p) 0%float ->
  forceMagnitude elementSizeFunction dimension pow pts edges !! k = Some infinity /\
  project_points_to_function distanceFunction h0 uninitialized pts !! i
  = Some (replicate (length p) nan).
Proof.
  intros Hl0 Hlen Hpos Hp Hout Hgrad. split.
  - unfold forceMagnitude. rewrite lookup_zip_with, Hl0, Hlen. simpl.
    f_equal. exact (float_force_zero_length l0 Hpos).
  - rewrite (project_points_lookup _ _ _ _ _ _ Hp), rzero_float.
    change (rltb 0%float (distanceFunction p))
      with (PrimFloat.ltb 0 (distanceFunction p)).
    rewrite Hout. f_equal. unfold spec_projection.
    change (rmul (rsqrt epsilon) h0) with (fd_step h0). rewrite Hgrad.
    assert (Hden : vsum (map (fun g : float => rmul g g)
                           (replicate (length p) 0%float)) = 0%float).
    { generalize (length p) as n. intros [|n]; [reflexivity|]. simpl.
      induction n as [|n IH]; simpl; [reflexivity|exact IH]. }
    cbv zeta. rewrite Hden.
    generalize (distanceFunction p) as dist. intros dist. clear.
    induction p as [|x p IH]; [reflexivity|].
    cbn [length replicate zip_with]. rewrite IH. f_equal.
    exact (float_project_zero_gradient x dist).
Qed.

(** The hypotheses of [division_by_zero_unguarded] hold on the line of the
    mesh of the points 0, 0 and 1, whose first edge has length zero, and of
    its first point under the distance function that is 1 everywhere. *)
Lemma division_by_zero_unguarded_witness :
  edgeLength [[0]; [0]; [1]]%float [(1, 0); (2, 1)]%Z !! 0 = Some 0%float /\
  desiredEdgeLength unit_size 1 pow_1d [[0]; [0]; [1]]%float [(1, 0); (2, 1)]%Z !! 0
  = Some 0x1.6666666666666p-1%float /\
  spec_gradient outside_everywhere (fd_step 1%float) [0%float] = [0%float] /\
  forceMagnitude unit_size 1 pow_1d [[0]; [0]; [1]]%float [(1, 0); (2, 1)]%Z !! 0
  = Some infinity /\
  project_points_to_function outside_everywhere 1%float 0%float
    [[0]; [0]; [1]]%float !! 0
  = Some [nan].
Proof.
  split; [reflexivity|]. split; [reflexivity|]. split; [reflexivity|].
  exact (division_by_zero_unguarded unit_size 1 pow_1d [[0]; [0]; [1]]%float
           [(1, 0); (2, 1)]%Z 0 _ outside_everywhere 1%float 0%float 0 [0%float]
           eq_refl eq_refl eq_refl eq_refl eq_refl eq_refl).
Defined.

(** C7 fails as stated: in the mesh of the points 0, 0 and 1 of the line the
    first edge has length zero, the quotient by this length is taken as it
    is, its force magnitude is +infinity and its force a NaN; under a
    distance function that is 1 everywhere the gradient of the point (0, 0)
    is zero, the quotient by its squared norm is taken as it is, and the
    point becomes (NaN, NaN). *)
Lemma division_by_zero_examples :
  edgeLength [[0]; [0]; [1]]%float [(1, 0); (2, 1)]%Z = [0; 1]%float /\
  forceMagnitude unit_size 1 pow_1d [[0]; [0]; [1]]%float [(1, 0); (2, 1)]%Z
  = [infinity; 0%float] /\
  forceVector unit_size 1 pow_1d [[0]; [0]; [1]]%float [(1, 0); (2, 1)]%Z
  = [[nan]; [0%float]] /\
  gradient_row outside_everywhere 1%float 0%float [0; 0]%float 1%float
  = [0; 0]%float /\
  project_points_to_function outside_everywhere 1%float 0%float [[0; 0]]%float
  = [[nan; nan]].
Proof. repeat split; vm_compute; reflexivity. Qed.

(** ** The run on the line *)

(** The hypotheses of [fixed_point_kept] hold of the point 0, fixed at the end
    of the segment [0, 4], in the run that starts from the points 0, 1, 4. *)
Lemma fixed_point_kept_witness :
  0 < length [[0%float]] /\
  rltb rzero (segment_distance [0%float]) = false /\
  points (first_iteration_1d [[0%float]] [[0]; [1]; [4]]%float) !! 0
  = Some [0%float] /\
  points (first_iteration_1d [[0%float]] [[0]; [1]; [4]]%float) !! 1
  = Some [0x1.5c28f5c28f5c2p+0%float].
Proof.
  split; [simpl; lia|]. split; [reflexivity|]. split; [|reflexivity].
  refine (proj1 (proj2 (proj2 (fixed_point_kept segment_distance unit_size 1%float 1
            [[0%float]] two_segments pow_1d _ _ _ _
            (initial_state [[0]; [1]; [4]]%float two_segments) 0 [0%float] _ _ _)))).
  - simpl. lia.
  - reflexivity.
  - reflexivity.
Defined.

(** C1 fails as stated: with the point 5 fixed outside the segment [0, 4], the
    first iteration projects it to 4. *)
Lemma fixed_point_outside_is_projected :
  points (first_iteration_1d [[5%float]] [[5]; [1]; [4]]%float) !! 0
  = Some [4%float] /\
  points (first_iteration_1d [[5%float]] [[5]; [1]; [4]]%float) !! 0
  <> points (initial_state (R:=float) [[5]; [1]; [4]]%float two_segments) !! 0.
Proof.
  assert (Hv : points (first_iteration_1d [[5%float]] [[5]; [1]; [4]]%float) !! 0
               = Some [4%float]) by (vm_compute; reflexivity).
  split; [exact Hv|]. rewrite Hv. simpl. intros Heq.
  assert (Hb := f_equal
    (fun o : option (list float) =>
       from_option (fun r => PrimFloat.eqb (default 0%float (r !! 0)) 4) false o) Heq).
  vm_compute in Hb. discriminate Hb.
Qed.

(** The hypotheses of [retriangulation_keeps_inside] hold in the first
    iteration of the run from the points 0, 1, 4: both segments have their
    centroid, 0.5 and 2.5, inside the segment [0, 4] and are kept. *)
Lemma retriangulation_keeps_inside_witness :
  retriangulation_test 1%float 0x1.999999999999ap-4%float
    (initial_state [[0]; [1]; [4]]%float two_segments) = true /\
  centroid 1 [[0]; [1]; [4]]%float [0; 1]%Z = [0x1p-1%float] /\
  centroid 1 [[0]; [1]; [4]]%float [1; 2]%Z = [0x1.4p+1%float] /\
  triangulation
    (retriangulation_phase segment_distance 1%float 1 two_segments
       0x1.999999999999ap-4%float 0x1.0624dd2f1a9fcp-10%float
       (initial_state [[0]; [1]; [4]]%float two_segments))
  = List.filter
      (fun s => rltb (segment_distance (centroid 1 [[0]; [1]; [4]]%float s))
                     (rmul (rneg 0x1.0624dd2f1a9fcp-10%float) 1%float))
      [[0; 1]; [1; 2]]%Z.
Proof.
  split; [reflexivity|]. split; [reflexivity|]. split; [reflexivity|].
  refine (proj1 (retriangulation_keeps_inside segment_distance 1%float 1
                   two_segments 0x1.999999999999ap-4%float
                   0x1.0624dd2f1a9fcp-10%float
                   (initial_state [[0]; [1]; [4]]%float two_segments) eq_refl _)).
  intros s Hs. simpl in Hs. unfold two_segments in Hs.
  apply elem_of_cons in Hs as [->|Hs]; [reflexivity|].
  apply elem_of_cons in Hs as [->|Hs]; [reflexivity|].
  by apply elem_of_nil in Hs.
Defined.

(** * Further properties of the code *)

(** ** find_unique_bars: the rows of the edge array *)

Lemma set_insert_length (b : bar) (s : list bar) :
  length (set_insert b s) <= S (length s).
Proof.
  induction s as [|x s IH]; simpl; [lia|].
  destruct (bar_ltb b x); simpl; [lia|].
  destruct (bar_ltb x b); simpl; lia.
Qed.

Lemma insert_loop_length (cols : nat) (simplex : list Z) (idx : list nat)
    (set : list bar) :
  length (fold_left (fun set i => set_insert (bar_of cols simplex i) set) idx set)
  <= length set + length idx.
Proof.
  revert set. induction idx as [|i idx IH]; intros set; simpl; [lia|].
  pose proof (IH (set_insert (bar_of cols simplex i) set)) as Hle.
  pose proof (set_insert_length (bar_of cols simplex i) set). lia.
Qed.

Lemma find_unique_bars_length (cols : nat) (tri : list (list Z)) :
  length (find_unique_bars cols tri) <= (cols + 1) * length tri.
Proof.
  unfold find_unique_bars.
  assert (Hgen : forall set,
            length (fold_left
                      (fun set simplex =>
                         fold_left (fun set i => set_insert (bar_of cols simplex i) set)
                                   (seq 0 (cols + 1)) set) tri set)
            <= length set + (cols + 1) * length tri).
  { induction tri as [|s tri IH]; intros set; simpl; [lia|].
    pose proof (IH (fold_left (fun set i => set_insert (bar_of cols s i) set)
                              (seq 0 (cols + 1)) set)) as Hle.
    pose proof (insert_loop_length cols s (seq 0 (cols + 1)) set) as Hin.
    rewrite length_seq in Hin. lia. }
  specialize (Hgen []). simpl in Hgen. lia.
Qed.

(** Two strictly increasing lists with the same elements are the same
    list. *)
Lemma sorted_same_elements (l1 l2 : list bar) :
  StronglySorted bar_lt l1 -> StronglySorted bar_lt l2 ->
  (forall x, x ∈ l1 <-> x ∈ l2) -> l1 = l2.
Proof.
  intros H1. revert l2. induction H1 as [|x l1 Hs1 IH Hx]; intros l2 H2 Hel.
  - destruct l2 as [|y l2]; [reflexivity|].
    exfalso. apply (not_elem_of_nil y), Hel. by left.
  - destruct H2 as [|y l2 Hs2 Hy].
    + exfalso. apply (not_elem_of_nil x), Hel. by left.
    + rewrite Forall_forall in Hx, Hy.
      assert (Hxy : x = y).
      { assert (Hxin : x ∈ y :: l2) by (apply Hel; by left).
        assert (Hyin : y ∈ x :: l1) by (apply Hel; by left).
        apply elem_of_cons in Hxin as [?|Hxin]; [assumption|].
        apply elem_of_cons in Hyin as [?|Hyin]; [by symmetry|].
        exfalso. apply (bar_lt_irrefl x).
        eapply bar_lt_trans; [by apply Hx|by apply Hy]. }
      subst y. f_equal. apply IH; [exact Hs2|]. intros z. split; intros Hz.
      * assert (Hin : z ∈ x :: l2) by (apply Hel; by right).
        apply elem_of_cons in Hin as [->|Hin]; [|exact Hin].
        exfalso. by apply (bar_lt_irrefl x), Hx.
      * assert (Hin : z ∈ x :: l1) by (apply Hel; by right).
        apply elem_of_cons in Hin as [->|Hin]; [|exact Hin].
        exfalso. by apply (bar_lt_irrefl x), Hy.
Qed.

Lemma sorted_lookup_lt (l : list bar) (i j : nat) (a b : bar) :
  StronglySorted bar_lt l -> i < j -> l !! i = Some a -> l !! j = Some b ->
  bar_lt a b.
Proof.
  intros Hs. revert i j. induction Hs as [|x l Hs IH Hx]; intros i j Hij Hi Hj.
  - rewrite lookup_nil in Hi. discriminate Hi.
  - destruct j as [|j]; [lia|]. destruct i as [|i]; simpl in Hi, Hj.
    + injection Hi as <-. rewrite Forall_forall in Hx.
      apply Hx. by eapply list_elem_of_lookup_2.
    + apply (IH i j); [lia|exact Hi|exact Hj].
Qed.

(** X1: the rows of the edge array are strictly increasing in the
    lexicographic order of the pairs, the order of the set they are copied
    from, and every row holds its larger index first. *)
Theorem find_unique_bars_rows_ordered (D : nat) (tri : list (list Z)) :
  let edges := find_unique_bars D tri in
  (forall i j a b, i < j -> edges !! i = Some a -> edges !! j = Some b ->
     (a.1 < b.1 \/ (a.1 = b.1 /\ a.2 < b.2))%Z) /\
  (forall b, b ∈ edges -> (b.2 <= b.1)%Z).
Proof.
  intros edges. split.
  - intros i j a b. apply sorted_lookup_lt, find_unique_bars_sorted.
  - apply find_unique_bars_canonical.
Qed.

(** X2: every row of the edge array joins the vertices read at two cyclically
    adjacent positions of one simplex row, so the extractor adds no edge of
    its own, and there are at most [D + 1] rows per simplex. *)
Theorem find_unique_bars_sound (D : nat) (tri : list (list Z)) (b : bar) :
  let edges := find_unique_bars D tri in
  (b ∈ edges ->
   exists simplex i,
     simplex ∈ tri /\ i < D + 1 /\
     joins (tri_at simplex i) (tri_at simplex ((i + 1) mod (D + 1))) b = true) /\
  length edges <= (D + 1) * length tri.
Proof.
  intros edges. split; [|apply find_unique_bars_length].
  intros Hb. pose proof (find_unique_bars_canonical D tri b Hb) as Hcan.
  apply find_unique_bars_elem in Hb as (s & i & Hs & Hi & ->).
  exists s, i. split; [exact Hs|]. split; [exact Hi|].
  by apply joins_ordered_bar.
Qed.

(** X3: the edge array depends on the set of simplex rows only: two simplex
    arrays with the same rows, in any order and with any repetition, give the
    same edge array. *)
Theorem find_unique_bars_order_independent (D : nat) (tri1 tri2 : list (list Z)) :
  (forall simplex, simplex ∈ tri1 <-> simplex ∈ tri2) ->
  find_unique_bars D tri1 = find_unique_bars D tri2.
Proof.
  intros Hsame. apply sorted_same_elements; try apply find_unique_bars_sorted.
  intros x. rewrite !find_unique_bars_elem. split.
  - intros (s & i & Hs & Hi & ->). exists s, i. split; [by apply Hsame|by split].
  - intros (s & i & Hs & Hi & ->). exists s, i. split; [by apply Hsame|by split].
Qed.

(** The hypothesis of [find_unique_bars_order_independent] holds of the two
    triangles [0,1,2] and [1,2,3], listed in the other order and with the
    second one twice. *)
Lemma find_unique_bars_order_independent_witness :
  find_unique_bars 2 [[0; 1; 2]; [1; 2; 3]]%Z
  = find_unique_bars 2 [[1; 2; 3]; [0; 1; 2]; [1; 2; 3]]%Z.
Proof.
  apply (find_unique_bars_order_independent 2).
  intros simplex. rewrite !elem_of_cons, !elem_of_nil. tauto.
Defined.

(** ** project_points_to_function: the projector as a whole *)

Section ProjectorAsMap.
Context {R : Type} `{RealOps R}.
Variable distance_function : list R -> R.
Variable initial_edge_length : R.

(** What the projector does to one point. *)
Local Abbreviation project_point :=
  (fun p : list R =>
     if rltb rzero (distance_function p)
     then spec_projection distance_function initial_edge_length p else p).

Lemma project_points_map (uninitialized : R) (pts : list (list R)) :
  project_points_to_function distance_function initial_edge_length uninitialized pts
  = map project_point pts.
Proof.
  apply list_eq. intros i. rewrite list_lookup_fmap.
  destruct (pts !! i) as [p|] eqn:Hp; simpl.
  - by rewrite (project_points_lookup _ _ _ _ _ _ Hp).
  - apply lookup_ge_None. rewrite project_points_length. by apply lookup_ge_None.
Qed.

Lemma spec_projection_length (p : list R) :
  length (spec_projection distance_function initial_edge_length p) = length p.
Proof.
  unfold spec_projection, spec_gradient. cbv zeta.
  rewrite length_zip_with, length_map, length_seq. lia.
Qed.

(** X4: the projector never reads a coefficient of its gradient array that it
    has not written: its result is the same whatever the fresh array
    holds. *)
Theorem project_points_ignores_uninitialized (u u' : R) (pts : list (list R)) :
  project_points_to_function distance_function initial_edge_length u pts
  = project_points_to_function distance_function initial_edge_length u' pts.
Proof. by rewrite !project_points_map. Qed.

(** X5: the projector treats every point on its own, although it updates the
    array in place and tests first whether any point is outside: projecting
    two arrays one after the other is projecting their concatenation, an
    array without a point of positive distance is returned as it is, and
    every row keeps its width. *)
Theorem project_points_pointwise (u : R) (pts1 pts2 : list (list R)) :
  project_points_to_function distance_function initial_edge_length u (pts1 ++ pts2)
  = project_points_to_function distance_function initial_edge_length u pts1
    ++ project_points_to_function distance_function initial_edge_length u pts2 /\
  (Forall (fun p => rltb rzero (distance_function p) = false) pts1 ->
   project_points_to_function distance_function initial_edge_length u pts1 = pts1) /\
  Forall2 (fun p q => length q = length p) pts1
    (project_points_to_function distance_function initial_edge_length u pts1).
Proof.
  rewrite !project_points_map. split; [apply map_app|]. split.
  - intros Hin. induction Hin as [|p pts Hp Hin IH]; simpl; [reflexivity|].
    by rewrite Hp, IH.
  - induction pts1 as [|p pts IH]; simpl; constructor; [|exact IH].
    destruct (rltb rzero (distance_function p)); [|reflexivity].
    apply spec_projection_length.
Qed.
End ProjectorAsMap.

(** ** boundEdges: a triangulation without shared edges *)

Lemma scan_fresh (l : list Z) (set : gset Z) (boundary : list Z) :
  NoDup l -> (forall x, x ∈ l -> x ∉ set) ->
  (fold_left scan_step l (set, boundary)).2 = boundary ++ l.
Proof.
  revert set boundary. induction l as [|x l IH]; intros set boundary Hnd Hfresh; simpl.
  - by rewrite app_nil_r.
  - apply NoDup_cons in Hnd as [Hx Hnd].
    rewrite decide_False by (apply Hfresh; by left).
    rewrite IH; [by rewrite <- app_assoc|exact Hnd|].
    intros y Hy. rewrite elem_of_union, elem_of_singleton.
    intros [->|Hin]; [contradiction|]. apply (Hfresh y); [by right|exact Hin].
Qed.

(** X6: when no edge index is read twice, as for a single simplex, [boundEdges]
    returns, before the signs of the 2-D case are set, every edge index it
    reads, in the order of the scan. *)
Theorem boundEdges_without_shared_edge
    (getTriangulationEdgeIndices : list (list Z) -> list bar -> list (list Z))
    (triangulation : list (list Z)) (externalEdges : list bar) :
  let edges := if (length externalEdges =? 0)%nat
               then findUniqueEdges triangulation else externalEdges in
  let read := incidences triangulation
                (getTriangulationEdgeIndices triangulation edges) in
  NoDup read ->
  boundEdges getTriangulationEdgeIndices triangulation externalEdges = read.
Proof.
  intros edges read Hnd. unfold boundEdges, boundaryEdges. fold edges. fold read.
  rewrite scan_fresh; [reflexivity|exact Hnd|]. intros x _. set_solver.
Qed.

(** The hypothesis of [boundEdges_without_shared_edge] holds of the single
    triangle [0,1,2] whose edges are the rows 0, 1, 2 of the edge array. *)
Lemma boundEdges_without_shared_edge_witness :
  boundEdges (fun _ _ => [[0; 1; 2]]%Z) [[0; 1; 2]]%Z [] = [0; 1; 2]%Z.
Proof.
  apply (boundEdges_without_shared_edge (fun _ _ => [[0; 1; 2]]%Z) [[0; 1; 2]]%Z []).
  cbv zeta. simpl. apply (bool_decide_unpack _). vm_compute. exact I.
Defined.

(** ** distmesh: what every state of the loop keeps *)

Section RunInvariants.
Context {R : Type} `{RealOps R}.
Variable distanceFunction : list R -> R.
Variable elementSizeFunction : list R -> R.
Variable initialPointDistance : R.
Variable dimension : nat.
Variable fixedPoints : list (list R).
Variable createInitialPoints : list (list R).
Variable delaunay : list (list R) -> list (list Z).
Variable pow : R -> R -> R.
Variable maxSteps : nat.
Variable retriangulationThreshold : R.
Variable geometryEvaluationThreshold : R.
Variable pointsMovementThreshold : R.
Variable deltaT : R.
Variable uninitialized : R.

Local Abbreviation step :=
  (iteration distanceFunction elementSizeFunction initialPointDistance dimension
     fixedPoints delaunay pow retriangulationThreshold geometryEvaluationThreshold
     deltaT uninitialized).
Local Abbreviation retriangulated :=
  (retriangulation_phase distanceFunction initialPointDistance dimension delaunay
     retriangulationThreshold geometryEvaluationThreshold).
Local Abbreviation init := (initial_state createInitialPoints delaunay).
Local Abbreviation run :=
  (main_loop distanceFunction elementSizeFunction initialPointDistance dimension
     fixedPoints delaunay pow retriangulationThreshold geometryEvaluationThreshold
     pointsMovementThreshold deltaT uninitialized maxSteps init).
(** The simplices kept at a retriangulation of the points [B]. *)
Local Abbreviation kept B :=
  (selectMaskedArrayElements (delaunay B)
     (inside_mask distanceFunction initialPointDistance geometryEvaluationThreshold
        (circumcenter dimension B (delaunay B)))).

Lemma iterations_length (k : nat) (st : State R) :
  length (points (Nat.iter k step st)) = length (points st).
Proof.
  induction k as [|k IH]; [reflexivity|].
  change (Nat.iter (S k) step st) with (step (Nat.iter k step st)).
  by rewrite iteration_length.
Qed.

(** X7: the number of points never changes: every state of the loop, and the
    array [distmesh] returns, has as many rows as the initial array. *)
Theorem distmesh_point_count :
  (forall k, length (points (Nat.iter k step init)) = length createInitialPoints) /\
  length (distmesh distanceFunction elementSizeFunction initialPointDistance
            dimension fixedPoints createInitialPoints delaunay pow maxSteps
            retriangulationThreshold geometryEvaluationThreshold
            pointsMovementThreshold deltaT uninitialized).1
  = length createInitialPoints.
Proof.
  split; [intros k; apply iterations_length|].
  unfold distmesh. simpl.
  destruct (main_loop_spec distanceFunction elementSizeFunction initialPointDistance
              dimension fixedPoints delaunay pow retriangulationThreshold
              geometryEvaluationThreshold pointsMovementThreshold deltaT
              uninitialized maxSteps init) as (_ & -> & _).
  apply iterations_length.
Qed.

(** The edge array and the triangulation of a state: either no
    retriangulation has taken place, or both stem from the last one. *)
Lemma step_keeps_structure (st : State R) :
  (edgeIndices st = None /\ triangulation st = delaunay createInitialPoints) \/
  (edgeIndices st = Some (findUniqueEdges (triangulation st)) /\
   triangulation st = kept (retriangulationCriterionBuffer st)) ->
  (edgeIndices (step st) = None /\
   triangulation (step st) = delaunay createInitialPoints) \/
  (edgeIndices (step st) = Some (findUniqueEdges (triangulation (step st))) /\
   triangulation (step st) = kept (retriangulationCriterionBuffer (step st))).
Proof.
  intros Hst. unfold iteration, force_phase. simpl.
  unfold retriangulation_phase. destruct (retriangulation_test _ _ _).
  - right. split; reflexivity.
  - exact Hst.
Qed.

Lemma iterations_keep_structure (k : nat) :
  let st := Nat.iter k step init in
  (edgeIndices st = None /\ triangulation st = delaunay createInitialPoints) \/
  (edgeIndices st = Some (findUniqueEdges (triangulation st)) /\
   triangulation st = kept (retriangulationCriterionBuffer st)).
Proof.
  induction k as [|k IH]; [left; split; reflexivity|].
  simpl. apply step_keeps_structure, IH.
Qed.

(** X8: in every state of the loop, and in the state [distmesh] returns from,
    either the edge array is still unassigned and the triangulation is the
    unfiltered Delaunay triangulation of the initial points, or the edge array
    is the edge extractor's result on the triangulation and the triangulation
    is the one kept for the snapshot points of the last retriangulation, not
    for the points as moved since. *)
Theorem distmesh_structure :
  (forall k,
     let st := Nat.iter k step init in
     (edgeIndices st = None /\ triangulation st = delaunay createInitialPoints) \/
     (edgeIndices st = Some (findUniqueEdges (triangulation st)) /\
      triangulation st = kept (retriangulationCriterionBuffer st))) /\
  (let final := run.2 in
   (distmesh distanceFunction elementSizeFunction initialPointDistance
      dimension fixedPoints createInitialPoints delaunay pow maxSteps
      retriangulationThreshold geometryEvaluationThreshold
      pointsMovementThreshold deltaT uninitialized).2 = triangulation final /\
   (triangulation final = delaunay createInitialPoints \/
    triangulation final = kept (retriangulationCriterionBuffer final))).
Proof.
  split; [exact iterations_keep_structure|]. cbv zeta. split; [reflexivity|].
  destruct (main_loop_spec distanceFunction elementSizeFunction initialPointDistance
              dimension fixedPoints delaunay pow retriangulationThreshold
              geometryEvaluationThreshold pointsMovementThreshold deltaT
              uninitialized maxSteps init) as (_ & -> & _).
  destruct (iterations_keep_structure run.1) as [[_ Ht]|[_ Ht]]; [by left|by right].
Qed.

(** The integration loop moves the two ends of the edges only. *)
Lemma move_points_no_endpoint (pts : list (list R)) (edges : list bar)
    (force : list (list R)) (i : nat) :
  (forall e, e ∈ edges -> e.1 <> Z.of_nat i /\ e.2 <> Z.of_nat i) ->
  move_points fixedPoints deltaT pts edges force !! i = pts !! i.
Proof.
  intros Hends. unfold move_points.
  assert (Hwork : forall e f, (e, f) ∈ zip edges force ->
                              e.1 <> Z.of_nat i /\ e.2 <> Z.of_nat i).
  { intros e f Hin. apply (Hends e). exact (elem_of_zip_l _ _ _ _ Hin). }
  clear Hends. revert Hwork. generalize (zip edges force) as work.
  intros work. revert pts.
  induction work as [|[e f] work IH]; intros pts Hwork; simpl; [reflexivity|].
  rewrite IH by (intros e' f' Hin; apply (Hwork e' f'); by right).
  destruct (Hwork e f) as [H1 H2]; [by left|].
  destruct (_ <=? e.2)%Z; destruct (_ <=? e.1)%Z;
    rewrite ?update_row_lookup_ne by congruence; reflexivity.
Qed.

(** X9: a point that is no vertex of the triangulation in use, and at which
    the distance function is not greater than zero, is not moved by the
    iteration: the integration step moves the ends of the edges only, the
    edges join vertices of simplices only, and the projection keeps the
    point. *)
Theorem iteration_keeps_isolated_point (k i : nat) (p : list R) :
  let st := Nat.iter k step init in
  let tri := triangulation (retriangulated st) in
  Forall (fun simplex => simplex <> [] /\ length simplex = ncols tri /\
                         Z.of_nat i ∉ simplex) tri ->
  points st !! i = Some p ->
  rltb rzero (distanceFunction p) = false ->
  points (step st) !! i = Some p.
Proof.
  intros st tri Htri Hp Hd. subst tri.
  assert (Hst : edgeIndices (retriangulated st) = None \/
                edgeIndices (retriangulated st)
                = Some (findUniqueEdges (triangulation (retriangulated st)))).
  { pose proof (iterations_keep_structure k) as Hk. cbv zeta in Hk. fold st in Hk.
    unfold retriangulation_phase. destruct (retriangulation_test _ _ _).
    - right. reflexivity.
    - destruct Hk as [[Hn _]|[Hs _]]; [by left|by right]. }
  set (st1 := retriangulated st) in *.
  set (tri := triangulation st1) in *.
  assert (Hedges : forall e, e ∈ default [] (edgeIndices st1) ->
                             e.1 <> Z.of_nat i /\ e.2 <> Z.of_nat i).
  { destruct Hst as [->| ->]; simpl; [intros e He; by apply elem_of_nil in He|].
    intros e He. unfold findUniqueEdges in He.
    apply find_unique_bars_elem in He as (s & j & Hs & Hj & ->).
    rewrite Forall_forall in Htri. destruct (Htri s Hs) as (Hne & Hlen & Hi).
    assert (Hw : ncols tri - 1 + 1 = length s)
      by (rewrite <- Hlen; destruct s; [congruence|simpl; lia]).
    assert (Hv : forall n, n < length s -> tri_at s n <> Z.of_nat i).
    { intros n Hn. destruct (lookup_lt_is_Some_2 s n Hn) as [v Hv].
      unfold tri_at. rewrite Hv. simpl. intros ->.
      apply Hi. by eapply list_elem_of_lookup_2. }
    assert (H1 := Hv j ltac:(lia)).
    assert (H2 := Hv ((j + 1) mod (ncols tri - 1 + 1))
                     ltac:(rewrite <- Hw; apply Nat.mod_upper_bound; lia)).
    unfold bar_of, ordered_bar. destruct (_ <? _)%Z; simpl; by split. }
  assert (Hp1 : points st1 !! i = Some p)
    by (unfold st1; rewrite retriangulation_phase_points; exact Hp).
  unfold iteration, force_phase. fold st1. simpl.
  unfold projectPointsToBoundary.
  erewrite project_points_lookup
    by (rewrite move_points_no_endpoint by exact Hedges; exact Hp1).
  by rewrite Hd.
Qed.
End RunInvariants.

(** The hypotheses of [iteration_keeps_isolated_point] hold of the point 2,
    fourth of the points 0, 1, 4, 2 of the line, in the first iteration of
    the run whose triangulator joins the first three: it is inside the
    segment [0, 4] and no vertex; the point 1 is moved. *)
Lemma iteration_keeps_isolated_point_witness :
  points (first_iteration_1d [] [[0]; [1]; [4]; [2]]%float) !! 3 = Some [2%float] /\
  points (first_iteration_1d [] [[0]; [1]; [4]; [2]]%float) !! 1
  = Some [0x1.5c28f5c28f5c2p+0%float].
Proof.
  split; [|reflexivity].
  refine (iteration_keeps_isolated_point segment_distance unit_size 1%float 1 []
            [[0]; [1]; [4]; [2]]%float two_segments pow_1d
            0x1.999999999999ap-4%float 0x1.0624dd2f1a9fcp-10%float
            0x1.999999999999ap-3%float 0%float 0 3 [2%float] _ eq_refl eq_refl).
  cbv zeta.
  change (triangulation _) with [[0; 1]; [1; 2]]%Z.
  repeat constructor; try discriminate;
    apply (bool_decide_unpack _); vm_compute; exact I.
Defined.

(** ** The force law: no attraction *)

(** X10: on binary64 no force magnitude compares less than zero (it is a
    zero, positive or not a number): whatever the lengths and the desired
    lengths, an edge never pulls its ends together, and the force on an edge
    is the edge vector scaled by this magnitude. *)
Theorem force_never_attracts (elementSizeFunction : list float -> float)
    (dimension : nat) (pow : float -> float -> float) (pts : list (list float))
    (edges : list bar) (k : nat) (f : float) :
  forceMagnitude elementSizeFunction dimension pow pts edges !! k = Some f ->
  PrimFloat.ltb f 0 = false /\
  exists v, edgeVector pts edges !! k = Some v /\
            forceVector elementSizeFunction dimension pow pts edges !! k
            = Some (map (fun c => c * f)%float v).
Proof.
  intros Hf. split.
  - unfold forceMagnitude in Hf. apply lookup_zip_with_Some in Hf
      as (l0 & len & -> & _ & _).
    unfold rmax. change (rltb ?a ?b) with (PrimFloat.ltb a b).
    change rzero with 0%float.
    destruct (PrimFloat.ltb (rdiv (rsub l0 len) len) 0) eqn:Hv;
      [reflexivity|exact Hv].
  - assert (Hlen : k < length (edgeVector pts edges)).
    { apply lookup_lt_Some in Hf. unfold forceMagnitude, edgeLength in Hf.
      rewrite length_zip_with, length_map in Hf. lia. }
    destruct (lookup_lt_is_Some_2 _ _ Hlen) as [v Hv]. exists v.
    split; [exact Hv|]. unfold forceVector.
    rewrite lookup_zip_with, Hv, Hf. reflexivity.
Qed.

(** The hypothesis of [force_never_attracts] holds of the second edge of the
    mesh of the points 0, 1, 4 of the line: the edge is longer than desired,
    and its force is zero, not negative. *)
Lemma force_never_attracts_witness :
  forceMagnitude unit_size 1 pow_1d [[0]; [1]; [4]]%float [(1, 0); (2, 1)]%Z !! 1
  = Some 0%float /\
  PrimFloat.ltb 0 0 = false.
Proof.
  split; [vm_compute; reflexivity|].
  refine (proj1 (force_never_attracts unit_size 1 pow_1d [[0]; [1]; [4]]%float
                   [(1, 0); (2, 1)]%Z 1 0%float _)).
  vm_compute. reflexivity.
Defined.

(** ** boundEdges: the orientation of the 2-D case *)

(** What the loop over [edge] does to one entry. *)
Lemma orient_loop_lookup {R : Type} `{RealOps R} (nodes : list (list R))
    (triangulation : list (list Z)) (edges : list bar)
    (edgeIndices : list (list Z)) (n s : nat) (boundary : list Z) (k : nat) :
  let result := fold_left (orient_step nodes triangulation edges edgeIndices)
                          (seq s n) boundary in
  length result = length boundary /\
  result !! k =
    if bool_decide (s <= k < s + n)
    then (fun b => if wrong_orientation nodes triangulation edges edgeIndices b
                   then wrap_int (b * -1) else b) <$> boundary !! k
    else boundary !! k.
Proof.
  revert s boundary. induction n as [|n IH]; intros s boundary; simpl.
  - split; [reflexivity|]. rewrite bool_decide_eq_false_2 by lia. reflexivity.
  - destruct (IH (S s) (orient_step nodes triangulation edges edgeIndices boundary s))
      as [Hlen Hk].
    assert (Hstep : length (orient_step nodes triangulation edges edgeIndices boundary s)
                    = length boundary).
    { unfold orient_step. destruct (wrong_orientation _ _ _ _ _);
        [apply length_insert|reflexivity]. }
    split; [congruence|]. rewrite Hk. clear Hk IH Hlen Hstep.
    unfold orient_step, tri_at.
    destruct (decide (k = s)) as [->|Hne].
    + rewrite bool_decide_eq_false_2 by lia. rewrite bool_decide_eq_true_2 by lia.
      destruct (boundary !! s) as [b|] eqn:Hb; simpl.
      * destruct (wrong_orientation _ _ _ _ b); [|exact Hb].
        apply list_lookup_insert_eq, lookup_lt_Some with b, Hb.
      * destruct (wrong_orientation _ _ _ _ 0%Z); [|exact Hb].
        rewrite list_insert_ge; [exact Hb|]. apply lookup_ge_None, Hb.
    + assert (Hsame : (if wrong_orientation nodes triangulation edges edgeIndices
                             (default 0%Z (boundary !! s))
                       then <[s := wrap_int (default 0%Z (boundary !! s) * -1)]> boundary
                       else boundary) !! k = boundary !! k).
      { destruct (wrong_orientation _ _ _ _ _); [|reflexivity].
        apply list_lookup_insert_ne. congruence. }
      rewrite Hsame.
      destruct (decide (S s <= k < S s + n)).
      * rewrite !bool_decide_eq_true_2 by lia. reflexivity.
      * rewrite !bool_decide_eq_false_2 by lia. reflexivity.
Qed.

(** X11: the orientation of the 2-D case changes signs only.  The result of
    [boundEdges] has the entries of the scan, each either as the scan left it
    or negated (in 32 bits), one by one and in their order; away from two
    coordinates per node it is the result of the scan.  The entry 0 is left
    as it is whatever the test says: the edge of row 0 cannot be marked. *)
Theorem boundEdges_orientation_changes_signs_only {R : Type} `{RealOps R}
    (getTriangulationEdgeIndices : list (list Z) -> list bar -> list (list Z))
    (nodes : list (list R)) (triangulation : list (list Z))
    (externalEdges : list bar) :
  let scanned := boundEdges getTriangulationEdgeIndices triangulation externalEdges in
  let oriented :=
    boundEdges_oriented getTriangulationEdgeIndices nodes triangulation externalEdges in
  length oriented = length scanned /\
  (forall k b, scanned !! k = Some b ->
     oriented !! k = Some b \/ oriented !! k = Some (wrap_int (- b))) /\
  (forall k b r, scanned !! k = Some b -> oriented !! k = Some r ->
     (- 2 ^ 31 <= b < 2 ^ 31)%Z -> Z.abs r = Z.abs b) /\
  (forall k, scanned !! k = Some 0%Z -> oriented !! k = Some 0%Z) /\
  (ncols nodes <> 2 -> oriented = scanned).
Proof.
  intros scanned oriented.
  assert (Hcases : length oriented = length scanned /\
            forall k b, scanned !! k = Some b ->
              oriented !! k = Some b \/ oriented !! k = Some (wrap_int (- b))).
  { unfold oriented, boundEdges_oriented, scanned, boundEdges.
    destruct (ncols nodes =? 2)%nat; [|split; [reflexivity|intros; left; assumption]].
    split; [apply (orient_loop_lookup _ _ _ _ _ 0 _ 0)|].
    intros k b Hb.
    rewrite (proj2 (orient_loop_lookup _ _ _ _ _ 0 _ k)), Hb.
    destruct (bool_decide _); [|left; reflexivity]. simpl.
    destruct (wrong_orientation _ _ _ _ _); [right|left; reflexivity].
    do 2 f_equal. lia. }
  destruct Hcases as [Hlen Hcases].
  split; [exact Hlen|]. split; [exact Hcases|]. split; [|split].
  - intros k b r Hb Hr Hrange.
    destruct (Hcases k b Hb) as [Ho|Ho]; rewrite Ho in Hr; injection Hr as <-;
      [reflexivity|].
    unfold wrap_int. destruct (decide (b = - 2 ^ 31)%Z) as [->|Hmin];
      [reflexivity|].
    replace ((- b + 2 ^ 31) mod 2 ^ 32)%Z with (- b + 2 ^ 31)%Z
      by (symmetry; apply Z.mod_small; lia).
    lia.
  - intros k Hb. destruct (Hcases k 0%Z Hb) as [Ho|Ho]; exact Ho.
  - intros Hcols. unfold oriented, boundEdges_oriented, scanned, boundEdges.
    destruct (ncols nodes =? 2)%nat eqn:Hc; [|reflexivity].
    apply Nat.eqb_eq in Hc. contradiction.
Qed.
(** *** The element found for a boundary edge *)

Lemma min_visit_fold (M : list (list Z)) (l : list (nat * nat))
    (acc : Z * (nat * nat)) :
  acc.1 = int_at M acc.2.1 acc.2.2 ->
  let r := fold_left (min_visit M) l acc in
  r.1 = int_at M r.2.1 r.2.2 /\ (r.2 = acc.2 \/ r.2 ∈ l) /\
  (r.1 <= acc.1)%Z /\ Forall (fun p => (r.1 <= int_at M p.1 p.2)%Z) l.
Proof.
  revert acc. induction l as [|p l IH]; intros acc Hacc; simpl.
  - split; [exact Hacc|]. split; [left; reflexivity|]. split; [lia|constructor].
  - assert (Hstep : (min_visit M acc p).1
                    = int_at M (min_visit M acc p).2.1 (min_visit M acc p).2.2 /\
                    ((min_visit M acc p).2 = acc.2 \/ (min_visit M acc p).2 = p) /\
                    ((min_visit M acc p).1 <= acc.1)%Z /\
                    ((min_visit M acc p).1 <= int_at M p.1 p.2)%Z).
    { unfold min_visit. destruct (Z.ltb_spec (int_at M p.1 p.2) acc.1); simpl.
      - split; [reflexivity|]. split; [right; reflexivity|]. lia.
      - split; [exact Hacc|]. split; [left; reflexivity|]. lia. }
    destruct Hstep as (Hval & Hpos & Hle & Hp).
    destruct (IH _ Hval) as (Hv & Hwhere & Hmin & Hall).
    split; [exact Hv|]. split; [|split; [lia|]].
    + destruct Hwhere as [Hw|Hw].
      * destruct Hpos as [Hq|Hq]; [left; congruence|].
        right. rewrite Hw, Hq. apply list_elem_of_here.
      * right. apply list_elem_of_further, Hw.
    + constructor; [lia|exact Hall].
Qed.

Lemma flat_map_lookup_block {A B : Type} (f : A -> list B) (c : nat) (l : list A)
    (i j : nat) (a : A) :
  (forall a, length (f a) = c) -> l !! i = Some a -> j < c ->
  flat_map f l !! (i * c + j) = f a !! j.
Proof.
  intros Hc. revert i. induction l as [|x l IH]; intros i Hi Hj.
  - rewrite lookup_nil in Hi. discriminate.
  - simpl. destruct i as [|i]; simpl in Hi.
    + injection Hi as ->. simpl. apply lookup_app_l. rewrite Hc. exact Hj.
    + rewrite lookup_app_r by (rewrite Hc; simpl; lia).
      rewrite Hc. replace (S i * c + j - c) with (i * c + j) by (simpl; lia).
      apply IH; assumption.
Qed.

Lemma incidences_lookup (triangulation edgeIndices : list (list Z)) (i j : nat) :
  i < length triangulation -> j < ncols triangulation ->
  incidences triangulation edgeIndices !! (i * ncols triangulation + j)
  = Some (int_at edgeIndices i j).
Proof.
  intros Hi Hj. unfold incidences.
  rewrite (flat_map_lookup_block _ (ncols triangulation) _ i j i).
  - rewrite list_lookup_fmap, lookup_seq_lt by exact Hj. reflexivity.
  - intros a. rewrite length_map, length_seq. reflexivity.
  - apply lookup_seq_lt, Hi.
  - exact Hj.
Qed.

Lemma incidences_elem (triangulation edgeIndices : list (list Z)) (x : Z) :
  x ∈ incidences triangulation edgeIndices ->
  exists i j, i < length triangulation /\ j < ncols triangulation /\
              int_at edgeIndices i j = x.
Proof.
  unfold incidences. rewrite list_elem_of_In, in_flat_map.
  intros (i & Hi & Hx). apply in_map_iff in Hx as (j & Hx & Hj).
  apply in_seq in Hi, Hj. exists i, j. split; [lia|]. split; [lia|exact Hx].
Qed.

Lemma count_occ_one_lookup (l : list Z) (x : Z) (n m : nat) :
  count_occ Z.eq_dec l x = 1 -> l !! n = Some x -> l !! m = Some x -> n = m.
Proof.
  revert n m. induction l as [|y l IH]; intros n m Hc Hn Hm.
  - rewrite lookup_nil in Hn. discriminate.
  - simpl in Hc. destruct (Z.eq_dec y x) as [->|Hne].
    + assert (Hnot : ~ In x l) by (apply (count_occ_not_In Z.eq_dec); lia).
      destruct n as [|n]; destruct m as [|m]; simpl in Hn, Hm;
        [reflexivity| | |];
        exfalso; apply Hnot, list_elem_of_In; eapply list_elem_of_lookup_2; eassumption.
    + destruct n as [|n]; simpl in Hn; [congruence|].
      destruct m as [|m]; simpl in Hm; [congruence|].
      f_equal. apply IH; assumption.
Qed.

Lemma wrap_int_small (x : Z) : (- 2 ^ 31 <= x < 2 ^ 31)%Z -> wrap_int x = x.
Proof.
  intros Hx. unfold wrap_int. rewrite Z.mod_small by lia. lia.
Qed.

Lemma square_difference_small (b x : Z) :
  (0 <= b <= 46340)%Z -> (0 <= x <= 46340)%Z ->
  wrap_int (wrap_int (x - b) * wrap_int (x - b)) = ((x - b) * (x - b))%Z.
Proof.
  intros Hb Hx. rewrite (wrap_int_small (x - b)) by lia.
  apply wrap_int_small. nia.
Qed.
Lemma int_at_in_range (edgeIndices : list (list Z)) (cols i j : nat) :
  Forall (fun row => length row = cols /\
                     Forall (fun x => (0 <= x <= 46340)%Z) row) edgeIndices ->
  i < length edgeIndices -> j < cols ->
  exists row, edgeIndices !! i = Some row /\ row !! j = Some (int_at edgeIndices i j) /\
              (0 <= int_at edgeIndices i j <= 46340)%Z.
Proof.
  intros Hall Hi Hj.
  destruct (lookup_lt_is_Some_2 _ _ Hi) as [row Hrow]. exists row.
  rewrite Forall_lookup in Hall. destruct (Hall _ _ Hrow) as [Hlen Hrange].
  destruct (lookup_lt_is_Some_2 row j ltac:(lia)) as [x Hx].
  unfold int_at, tri_at. rewrite Hrow. simpl. rewrite Hx. simpl.
  split; [reflexivity|]. split; [reflexivity|].
  rewrite Forall_lookup in Hrange. exact (Hrange _ _ Hx).
Qed.

(** X12: the element the orientation finds for a boundary edge is the one
    simplex that has it.  When the array of edge indices has the shape of the
    triangulation and entries from 0 to 46340 (so that no square of a
    difference leaves the 32 bits), then for every entry [b] of the result of
    the scan the position that [minCoeff] returns on
    [(edgeIndices - b).square()] lies inside the array, holds [b], and is
    the only position that does. *)
Theorem boundEdges_orientation_finds_incident_simplex
    (triangulation edgeIndices : list (list Z)) (b : Z) :
  length edgeIndices = length triangulation ->
  Forall (fun row => length row = ncols triangulation /\
                     Forall (fun x => (0 <= x <= 46340)%Z) row) edgeIndices ->
  b ∈ boundaryEdges triangulation edgeIndices ->
  let found := minCoeff_index (square_difference b edgeIndices) in
  found.1 < length triangulation /\ found.2 < ncols triangulation /\
  int_at edgeIndices found.1 found.2 = b /\
  forall i j, i < length triangulation -> j < ncols triangulation ->
              int_at edgeIndices i j = b -> (i, j) = found.
Proof.
  intros Hrows Hshape Hb found.
  set (cols := ncols triangulation) in *.
  destruct (scan_inv_boundaryEdges triangulation edgeIndices) as [_ Hcount].
  apply Hcount in Hb.
  assert (Hin : b ∈ incidences triangulation edgeIndices).
  { apply list_elem_of_In, (count_occ_In Z.eq_dec). lia. }
  destruct (incidences_elem _ _ _ Hin) as (i0 & j0 & Hi0 & Hj0 & Hb0).
  fold cols in Hj0.
  assert (Hbrange : (0 <= b <= 46340)%Z).
  { destruct (int_at_in_range edgeIndices cols i0 j0 Hshape) as (_ & _ & _ & Hr);
      [lia|exact Hj0|]. rewrite Hb0 in Hr. exact Hr. }
  set (M := square_difference b edgeIndices) in *.
  assert (HM : forall i j, i < length triangulation -> j < cols ->
             int_at M i j
             = ((int_at edgeIndices i j - b) * (int_at edgeIndices i j - b))%Z).
  { intros i j Hi Hj.
    destruct (int_at_in_range edgeIndices cols i j Hshape) as (row & Hrow & Hx & Hr);
      [lia|exact Hj|].
    unfold M, square_difference, int_at at 1, tri_at.
    rewrite list_lookup_fmap, Hrow. simpl. rewrite list_lookup_fmap, Hx. simpl.
    apply square_difference_small; assumption. }
  assert (Hlen : length M = length triangulation).
  { unfold M, square_difference. rewrite length_map. exact Hrows. }
  assert (Hcols : ncols M = cols).
  { unfold M, square_difference. destruct edgeIndices as [|row rest];
      [simpl in Hrows; lia|].
    simpl. rewrite length_map. apply Forall_cons in Hshape as [[Hl _] _]. exact Hl. }
  destruct (min_visit_fold M (column_major (length M) (ncols M))
              (int_at M 0 0, (0, 0)) eq_refl) as (Hval & Hwhere & _ & Hmin).
  simpl in Hwhere. unfold minCoeff_index in found.
  set (r := fold_left (min_visit M) (column_major (length M) (ncols M))
              (int_at M 0 0, (0, 0))) in *.
  change found with r.2. clear found.
  assert (Hpos : forall i j, (i, j) ∈ column_major (length M) (ncols M)
                             <-> i < length triangulation /\ j < cols).
  { intros i j. unfold column_major. rewrite list_elem_of_In, in_flat_map.
    rewrite Hlen, Hcols. split.
    - intros (j' & Hj' & Hi'). apply in_map_iff in Hi' as (i' & Heq & Hi').
      injection Heq as -> ->. apply in_seq in Hj', Hi'.
      split; [apply Hi'|apply Hj'].
    - intros [Hi Hj]. exists j. split; [apply in_seq; split; [apply Nat.le_0_l|exact Hj]|].
      apply in_map_iff. exists i.
      split; [reflexivity|apply in_seq; split; [apply Nat.le_0_l|exact Hi]]. }
  assert (Hrange : r.2.1 < length triangulation /\ r.2.2 < cols).
  { destruct Hwhere as [Hw|Hw].
    - rewrite Hw. simpl. lia.
    - apply Hpos. destruct r.2. exact Hw. }
  destruct Hrange as [Hr1 Hr2].
  assert (Hzero : int_at M r.2.1 r.2.2 = 0%Z).
  { rewrite Forall_forall in Hmin.
    assert (Hle := Hmin (i0, j0) (proj2 (Hpos i0 j0) (conj Hi0 Hj0))).
    simpl in Hle. rewrite (HM i0 j0 Hi0 Hj0), Hb0 in Hle.
    rewrite <- Hval. rewrite Hval in Hle |- *.
    rewrite (HM _ _ Hr1 Hr2) in Hle |- *.
    replace ((b - b) * (b - b))%Z with 0%Z in Hle by lia.
    assert (Hsq := Z.square_nonneg (int_at edgeIndices r.2.1 r.2.2 - b)). lia. }
  rewrite (HM _ _ Hr1 Hr2) in Hzero.
  assert (Hfound : int_at edgeIndices r.2.1 r.2.2 = b).
  { apply Z.eq_mul_0 in Hzero. lia. }
  split; [exact Hr1|]. split; [exact Hr2|]. split; [exact Hfound|].
  intros i j Hi Hj Hij.
  assert (Hn := incidences_lookup triangulation edgeIndices i j Hi Hj).
  assert (Hm := incidences_lookup triangulation edgeIndices r.2.1 r.2.2 Hr1 Hr2).
  rewrite Hij in Hn. rewrite Hfound in Hm.
  assert (Heq := count_occ_one_lookup _ _ _ _ Hb Hn Hm). fold cols in Heq.
  assert (i = r.2.1) by nia. subst i.
  assert (j = r.2.2) by lia. subst j.
  destruct r.2. reflexivity.
Qed.

(** The hypotheses of [boundEdges_orientation_finds_incident_simplex] hold of
    two triangles that share the edge 1: the edge 3 is found in the second
    triangle, at its second column. *)
Lemma boundEdges_orientation_finds_incident_simplex_witness :
  minCoeff_index (square_difference 3 [[0; 1; 2]; [1; 3; 4]]%Z) = (1, 1) /\
  int_at [[0; 1; 2]; [1; 3; 4]]%Z 1 1 = 3%Z.
Proof.
  assert (Hshape : Forall (fun row => length row = ncols [[0; 1; 2]; [1; 2; 3]]%Z /\
                                      Forall (fun x => (0 <= x <= 46340)%Z) row)
                          [[0; 1; 2]; [1; 3; 4]]%Z).
  { repeat constructor; simpl; lia. }
  assert (Hb : (3 ∈ boundaryEdges [[0; 1; 2]; [1; 2; 3]] [[0; 1; 2]; [1; 3; 4]])%Z).
  { apply (bool_decide_unpack _). vm_compute. exact I. }
  destruct (boundEdges_orientation_finds_incident_simplex
              [[0; 1; 2]; [1; 2; 3]]%Z [[0; 1; 2]; [1; 3; 4]]%Z 3%Z eq_refl Hshape Hb)
    as (_ & _ & Hfound & _).
  split; [reflexivity|exact Hfound].
Defined.


(** *** The node taken for the orientation test *)

Lemma find_seq_first (f : nat -> bool) (n s : nat) :
  match List.find f (seq s n) with
  | Some k => s <= k < s + n /\ f k = true /\
              forall m, s <= m < k -> f m = false
  | None => forall m, s <= m < s + n -> f m = false
  end.
Proof.
  revert s. induction n as [|n IH]; intros s; simpl.
  - intros m Hm. lia.
  - destruct (f s) eqn:Hs.
    + split; [lia|]. split; [exact Hs|]. intros m Hm. lia.
    + specialize (IH (S s)). destruct (List.find f (seq (S s) n)) as [k|].
      * destruct IH as (Hk & Hfk & Hfirst). split; [lia|]. split; [exact Hfk|].
        intros m Hm. destruct (decide (m = s)) as [->|Hne]; [exact Hs|].
        apply Hfirst. lia.
      * intros m Hm. destruct (decide (m = s)) as [->|Hne]; [exact Hs|].
        apply IH. lia.
Qed.

(** X16: the loop with [break] that looks for the node of the element not
    used in the edge stops at the first column whose vertex is neither end of
    the edge: every column before the one it returns holds an end of the
    edge; when some column of the element holds another vertex, the returned
    column does; and when every vertex of the element is an end of the edge,
    it returns column 0, so that the test is made with an end of the edge. *)
Theorem find_nodeIndex_first_other_vertex (simplex : list Z) (cols : nat) (e : bar) :
  let nodeIndex := find_nodeIndex simplex cols e in
  (forall m, m < nodeIndex -> tri_at simplex m = e.1 \/ tri_at simplex m = e.2) /\
  ((exists m, m < cols /\ tri_at simplex m <> e.1 /\ tri_at simplex m <> e.2) ->
   nodeIndex < cols /\
   tri_at simplex nodeIndex <> e.1 /\ tri_at simplex nodeIndex <> e.2) /\
  ((forall m, m < cols -> tri_at simplex m = e.1 \/ tri_at simplex m = e.2) ->
   nodeIndex = 0).
Proof.
  intros nodeIndex. unfold find_nodeIndex in nodeIndex.
  set (other := fun node => negb (tri_at simplex node =? e.1)%Z &&
                            negb (tri_at simplex node =? e.2)%Z) in *.
  assert (Hother : forall m, other m = true
                             <-> tri_at simplex m <> e.1 /\ tri_at simplex m <> e.2).
  { intros m. unfold other.
    rewrite andb_true_iff, !negb_true_iff, !Z.eqb_neq. reflexivity. }
  assert (Hend : forall m, other m = false
                           -> tri_at simplex m = e.1 \/ tri_at simplex m = e.2).
  { intros m Hm. destruct (decide (tri_at simplex m = e.1)) as [|H1]; [left; assumption|].
    destruct (decide (tri_at simplex m = e.2)) as [|H2]; [right; assumption|].
    assert (Ht : other m = true) by (apply Hother; split; assumption).
    congruence. }
  pose proof (find_seq_first other cols 0) as Hfind. subst nodeIndex.
  destruct (List.find other (seq 0 cols)) as [k|]; simpl.
  - destruct Hfind as (Hk & Hfk & Hfirst). split; [|split].
    + intros m Hm. apply Hend, Hfirst. lia.
    + intros _. split; [lia|]. apply Hother, Hfk.
    + intros Hall. destruct (Hall k ltac:(lia)) as [H1|H2];
        apply Hother in Hfk as [? ?]; contradiction.
  - split; [|split].
    + intros m Hm. lia.
    + intros (m & Hm & Hne). apply Hother in Hne.
      rewrite (Hfind m ltac:(lia)) in Hne. discriminate.
    + intros _. reflexivity.
Qed.

(** ** create_point_list *)

(** A loop that copies the rows of an array that pass a test, one after the
    other, leaves a selection of the rows in their order. *)
Lemma copy_loop_sublist {A : Type} (keep : nat -> bool) (d : A) (full : list A)
    (n s : nat) (acc : list A) :
  s + n <= length full ->
  exists copied,
    fold_left (fun acc k => if keep k then acc ++ [default d (full !! k)] else acc)
              (seq s n) acc = acc ++ copied /\
    copied `sublist_of` drop s full /\
    Forall (fun x => exists k, keep k = true /\ full !! k = Some x) copied.
Proof.
  revert s acc. induction n as [|n IH]; intros s acc Hs; simpl.
  - exists []. rewrite app_nil_r. split; [reflexivity|].
    split; [apply sublist_nil_l|constructor].
  - destruct (lookup_lt_is_Some_2 full s ltac:(lia)) as [x Hx].
    rewrite (drop_S _ _ _ Hx). rewrite Hx. simpl.
    destruct (keep s) eqn:Hk.
    + destruct (IH (S s) (acc ++ [x]) ltac:(lia)) as (copied & Heq & Hsub & Hall).
      exists (x :: copied). rewrite Heq, <- app_assoc. split; [reflexivity|].
      split; [apply sublist_skip, Hsub|].
      constructor; [exists s; split; assumption|exact Hall].
    + destruct (IH (S s) acc ltac:(lia)) as (copied & Heq & Hsub & Hall).
      exists copied. split; [exact Heq|]. split; [apply sublist_cons, Hsub|exact Hall].
Qed.

(** *** The grid indices are the digits of the point number *)

Lemma fold_mul_scale (l : list Z) (a : Z) :
  fold_left Z.mul l a = (a * fold_left Z.mul l 1)%Z.
Proof.
  revert a. induction l as [|x l IH]; intros a; simpl; [lia|].
  rewrite (IH (a * x)%Z), (IH (1 * x)%Z). lia.
Qed.

Lemma fold_mul_positive (l : list Z) :
  Forall (fun c => (0 < c)%Z) l -> (0 < fold_left Z.mul l 1)%Z.
Proof.
  induction 1 as [|x l Hx _ IH]; simpl; [lia|].
  rewrite fold_mul_scale. nia.
Qed.

Lemma grid_index_first (c : Z) (cs : list Z) (point : Z) :
  grid_index (c :: cs) 0 point = Z.rem point c.
Proof.
  unfold grid_index. simpl. rewrite Z.quot_1_r. reflexivity.
Qed.

Lemma grid_index_next (c : Z) (cs : list Z) (dim : nat) (point : Z) :
  (0 < c)%Z -> Forall (fun c => (0 < c)%Z) cs ->
  grid_index (c :: cs) (S dim) point = grid_index cs dim (Z.quot point c).
Proof.
  intros Hc Hcs. unfold grid_index. simpl.
  assert (Hpos : (0 < fold_left Z.mul (take dim cs) 1)%Z).
  { apply fold_mul_positive. apply Forall_take, Hcs. }
  rewrite (fold_mul_scale _ (1 * c)), Z.mul_1_l.
  rewrite Z.quot_quot by lia. reflexivity.
Qed.

Lemma grid_index_mixed_radix (cs ks : list Z) :
  Forall (fun c => (0 < c)%Z) cs ->
  length ks = length cs ->
  (forall dim, dim < length cs -> (0 <= tri_at ks dim < tri_at cs dim)%Z) ->
  exists point,
    (0 <= point < fold_left Z.mul cs 1)%Z /\
    (forall dim, dim < length cs -> grid_index cs dim point = tri_at ks dim) /\
    forall q, (0 <= q < fold_left Z.mul cs 1)%Z ->
      (forall dim, dim < length cs -> grid_index cs dim q = tri_at ks dim) ->
      q = point.
Proof.
  intros Hcs. revert ks. induction Hcs as [|c cs Hc Hcs IH]; intros ks Hlen Hks.
  - exists 0%Z. simpl. split; [lia|]. split; [intros dim Hd; simpl in Hd; lia|].
    intros q Hq _. lia.
  - destruct ks as [|k ks]; [discriminate|]. simpl in Hlen.
    destruct (IH ks ltac:(lia)) as (p & Hp & Hdigits & Huniq).
    { intros dim Hd. apply (Hks (S dim)). simpl. lia. }
    assert (Hk := Hks 0 ltac:(simpl; lia)). unfold tri_at in Hk. simpl in Hk.
    assert (Htotal : fold_left Z.mul (c :: cs) 1%Z = (c * fold_left Z.mul cs 1)%Z).
    { simpl. rewrite fold_mul_scale. lia. }
    rewrite Htotal.
    assert (Hrem : forall q, (0 <= q)%Z ->
              Z.rem q c = (q mod c)%Z /\ Z.quot q c = (q / c)%Z).
    { intros q Hq. split; [apply Z.rem_mod_nonneg|apply Z.quot_div_nonneg]; lia. }
    change (0 <= k < c)%Z in Hk.
    assert (Hbound : (0 <= c * p + k < c * fold_left Z.mul cs 1)%Z).
    { split; [nia|]. apply Z.lt_le_trans with (c * (p + 1))%Z; [lia|].
      apply Z.mul_le_mono_nonneg_l; lia. }
    exists (c * p + k)%Z. split; [exact Hbound|]. split.
    + intros [|dim] Hd.
      * rewrite grid_index_first.
        rewrite (proj1 (Hrem (c * p + k)%Z (proj1 Hbound))).
        rewrite Z.add_comm, Z.mul_comm, Z.mod_add by lia.
        unfold tri_at. simpl. apply Z.mod_small. lia.
      * rewrite grid_index_next by assumption.
        rewrite (proj2 (Hrem (c * p + k)%Z (proj1 Hbound))).
        replace ((c * p + k) / c)%Z with p.
        -- apply Hdigits. simpl in Hd. lia.
        -- rewrite Z.add_comm, Z.mul_comm, Z.div_add by lia.
           rewrite Z.div_small by lia. reflexivity.
    + intros q Hq Hqd.
      assert (H0 := Hqd 0 ltac:(simpl; lia)).
      rewrite grid_index_first in H0. unfold tri_at in H0. simpl in H0.
      destruct (Hrem q ltac:(lia)) as [Hr Hd].
      assert (Hquot : Z.quot q c = p).
      { apply Huniq.
        - rewrite Hd. split; [apply Z.div_pos; lia|].
          apply Z.div_lt_upper_bound; lia.
        - intros dim Hdim. rewrite <- grid_index_next by assumption.
          apply (Hqd (S dim)). simpl. lia. }
      rewrite Hr in H0. rewrite Hd in Hquot.
      rewrite (Z.div_mod q c) by lia. rewrite Hquot, H0. reflexivity.
Qed.

Lemma grid_index_range (cs : list Z) (dim : nat) (point : Z) :
  Forall (fun c => (0 < c)%Z) cs -> dim < length cs -> (0 <= point)%Z ->
  (0 <= grid_index cs dim point < tri_at cs dim)%Z.
Proof.
  intros Hcs Hd Hp. unfold grid_index.
  assert (Hpos : (0 < fold_left Z.mul (take dim cs) 1)%Z).
  { apply fold_mul_positive. apply Forall_take, Hcs. }
  assert (Hc : (0 < tri_at cs dim)%Z).
  { unfold tri_at. destruct (lookup_lt_is_Some_2 cs dim Hd) as [c Hc].
    rewrite Hc. simpl. rewrite Forall_lookup in Hcs. exact (Hcs _ _ Hc). }
  apply Z.rem_bound_pos; [|exact Hc].
  apply Z.quot_pos; lia.
Qed.

Section SamplerProperties.
Context {R : Type} `{RealOps R}.
Variable distance_function : list R -> R.
Variable edge_length_function : list R -> R.
Variable initial_edge_length : R.
Variable bounding_box : list (list R).
Variable general_precision : R.
Variable to_index : R -> Z.
Variable pow : R -> R -> R.
Variable random : nat -> R.
Variable uninitialized : R.

Local Abbreviation counts :=
  (max_points_per_dimension initial_edge_length bounding_box to_index).
Local Abbreviation total :=
  (max_point_count initial_edge_length bounding_box to_index).
Local Abbreviation grid :=
  (initial_points initial_edge_length bounding_box to_index uninitialized).
Local Abbreviation inside :=
  (inside_points distance_function initial_edge_length bounding_box
     general_precision to_index uninitialized).
Local Abbreviation final :=
  (create_point_list distance_function edge_length_function initial_edge_length
     bounding_box general_precision to_index pow random uninitialized).

Lemma fill_loop_lookup (g : nat -> list R -> list R) (n s : nat)
    (array : list (list R)) (p : nat) :
  let result := fold_left (fun array point => alter (g point) point array)
                          (seq s n) array in
  length result = length array /\
  result !! p = if bool_decide (s <= p < s + n) then g p <$> array !! p
                else array !! p.
Proof.
  revert s array. induction n as [|n IH]; intros s array; simpl.
  - split; [reflexivity|]. rewrite bool_decide_eq_false_2 by lia. reflexivity.
  - destruct (IH (S s) (alter (g s) s array)) as [Hlen Hp].
    rewrite length_alter in Hlen. split; [exact Hlen|]. rewrite Hp.
    destruct (decide (p = s)) as [->|Hne].
    + rewrite bool_decide_eq_false_2 by lia. rewrite bool_decide_eq_true_2 by lia.
      apply list_lookup_alter_eq.
    + rewrite list_lookup_alter_ne by congruence.
      destruct (decide (S s <= p < S s + n)).
      * rewrite !bool_decide_eq_true_2 by lia. reflexivity.
      * rewrite !bool_decide_eq_false_2 by lia. reflexivity.
Qed.

(** The state of the loop that fills the grid once the dimensions before
    [k] are written. *)
Lemma fill_dimension_invariant (k : nat) :
  k <= length bounding_box ->
  fold_left (fill_dimension initial_edge_length bounding_box to_index)
    (seq 0 k)
    (1%Z, replicate (Z.to_nat total) (replicate (length bounding_box) uninitialized))
  = (fold_left Z.mul (take k counts) 1%Z,
     map (fun point => map (grid_coordinate initial_edge_length bounding_box counts point)
                           (seq 0 k)
                       ++ replicate (length bounding_box - k) uninitialized)
         (seq 0 (Z.to_nat total))).
Proof.
  induction k as [|k IH]; intros Hk.
  - simpl. f_equal. rewrite Nat.sub_0_r. apply list_eq. intros p.
    rewrite list_lookup_fmap. destruct (decide (p < Z.to_nat total)) as [Hp|Hp].
    + rewrite lookup_replicate_2, lookup_seq_lt by exact Hp. reflexivity.
    + rewrite (proj1 (lookup_replicate_None _ _ _)), lookup_seq_ge by lia.
      reflexivity.
  - rewrite seq_S, fold_left_app, IH by lia. simpl.
    assert (Hcount : counts !! k = Some (tri_at counts k)).
    { unfold tri_at. destruct (lookup_lt_is_Some_2 counts k) as [c Hc];
        [unfold max_points_per_dimension; rewrite length_map; lia|].
      rewrite Hc. reflexivity. }
    rewrite (take_S_r _ _ _ Hcount), fold_left_app. simpl. f_equal.
    apply list_eq. intros p.
    rewrite (proj2 (fill_loop_lookup _ _ 0 _ p)), !list_lookup_fmap.
    destruct (decide (p < Z.to_nat total)) as [Hp|Hp].
    + rewrite bool_decide_eq_true_2 by lia. rewrite lookup_seq_lt by exact Hp.
      simpl. f_equal.
      replace (length bounding_box - k) with (S (length bounding_box - S k)) by lia.
      rewrite map_app, <- app_assoc. simpl.
      rewrite insert_app_r_alt by (rewrite length_map, length_seq; lia).
      rewrite length_map, length_seq, Nat.sub_diag. reflexivity.
    + rewrite bool_decide_eq_false_2 by lia. rewrite lookup_seq_ge by lia.
      reflexivity.
Qed.

Lemma initial_points_rows :
  grid = map (fun point => map (grid_coordinate initial_edge_length bounding_box counts point)
                               (seq 0 (length bounding_box)))
             (seq 0 (Z.to_nat total)).
Proof.
  unfold initial_points.
  rewrite (fill_dimension_invariant (length bounding_box)) by lia. simpl.
  apply map_ext. intros point. rewrite Nat.sub_diag. apply app_nil_r.
Qed.

Lemma inside_points_selected :
  inside `sublist_of` grid /\
  Forall (fun p => rltb (distance_function p)
                        (rmul general_precision initial_edge_length) = true) inside.
Proof.
  unfold inside_points.
  destruct (copy_loop_sublist
              (fun point => rltb (distance_function (default [] (grid !! point)))
                                 (rmul general_precision initial_edge_length))
              [] grid (length grid) 0 [] ltac:(lia)) as (copied & Heq & Hsub & Hall).
  rewrite Heq. simpl. rewrite drop_0 in Hsub. split; [exact Hsub|].
  eapply Forall_impl; [exact Hall|]. intros p (k & Hk & Hp). simpl in Hk.
  rewrite Hp in Hk. exact Hk.
Qed.

Lemma create_point_list_selected : final `sublist_of` inside.
Proof.
  unfold create_point_list, propability. rewrite length_map.
  match goal with
  | |- fold_left ?f _ _ `sublist_of` _ =>
      destruct (copy_loop_sublist
                  (fun point =>
                     rltb (random point)
                       (pow (rdiv (minCoeff (map edge_length_function inside))
                                  (default rzero
                                     (map edge_length_function inside !! point)))
                            (of_int (Z.of_nat (length bounding_box)))))
                  [] inside (length inside) 0 [] ltac:(lia))
        as (copied & Heq & Hsub & _)
  end.
  rewrite Heq. simpl. rewrite drop_0 in Hsub. exact Hsub.
Qed.

(** X13: the grid that [create_point_list] fills.  The array has
    [max_point_count] rows of one coefficient per dimension, none left as
    allocated: the coefficient [dim] of the row [point] is the lower bound of
    the dimension plus the edge length times
    [(point / same_value_count) % max_points_per_dimension(dim)], where
    [same_value_count] is the product of the counts of the dimensions before
    [dim]. *)
Theorem create_point_list_grid (point : nat) :
  length grid = Z.to_nat total /\
  (grid !! point = None <-> Z.to_nat total <= point) /\
  forall row, grid !! point = Some row ->
    length row = length bounding_box /\
    forall dim, dim < length bounding_box ->
      row !! dim
      = Some (radd (coefficient (default [] (bounding_box !! dim)) 0)
                (rmul initial_edge_length
                   (of_int (Z.rem (Z.quot (Z.of_nat point)
                                     (fold_left Z.mul (take dim counts) 1%Z))
                                  (tri_at counts dim))))).
Proof.
  assert (Hlen : length grid = Z.to_nat total).
  { rewrite initial_points_rows, length_map, length_seq. reflexivity. }
  split; [exact Hlen|]. split; [rewrite <- Hlen; apply lookup_ge_None|].
  intros row. rewrite initial_points_rows, list_lookup_fmap.
  destruct (seq 0 (Z.to_nat total) !! point) as [q|] eqn:Hq; [|discriminate].
  apply lookup_seq in Hq as [-> _]. simpl. intros [= <-].
  rewrite length_map, length_seq. split; [reflexivity|]. intros dim Hdim.
  rewrite list_lookup_fmap, lookup_seq_lt by exact Hdim. reflexivity.
Qed.


(** X15: the grid of [create_point_list] is the Cartesian product of the
    dimensions.  When every count of points per dimension is positive, the
    index of a point along a dimension is below the count of the dimension,
    and for every choice of one index per dimension below its count there is
    exactly one row number below [max_point_count] with these indices; the
    row of that number holds, per dimension, the lower bound plus the edge
    length times the chosen index. *)
Theorem create_point_list_grid_is_product :
  Forall (fun c => (0 < c)%Z) counts ->
  (forall point dim, dim < length bounding_box ->
     (0 <= grid_index counts dim (Z.of_nat point) < tri_at counts dim)%Z) /\
  forall ks : list Z,
    length ks = length bounding_box ->
    (forall dim, dim < length bounding_box ->
       (0 <= tri_at ks dim < tri_at counts dim)%Z) ->
    exists point : nat,
      grid !! point
      = Some (map (fun dim => radd (coefficient (default [] (bounding_box !! dim)) 0)
                                (rmul initial_edge_length (of_int (tri_at ks dim))))
                  (seq 0 (length bounding_box))) /\
      (forall dim, dim < length bounding_box ->
         grid_index counts dim (Z.of_nat point) = tri_at ks dim) /\
      forall q : nat, q < length grid ->
        (forall dim, dim < length bounding_box ->
           grid_index counts dim (Z.of_nat q) = tri_at ks dim) ->
        q = point.
Proof.
  intros Hpos.
  assert (Hlen : length counts = length bounding_box).
  { unfold max_points_per_dimension. apply length_map. }
  split.
  - intros point dim Hdim. apply grid_index_range; [exact Hpos|lia|lia].
  - intros ks Hks Hrange.
    destruct (grid_index_mixed_radix counts ks Hpos ltac:(lia)) as (p & Hp & Hdigits & Huniq).
    { intros dim Hdim. apply Hrange. lia. }
    fold total in Hp, Huniq.
    exists (Z.to_nat p). rewrite Z2Nat.id by lia. split; [|split].
    + rewrite initial_points_rows, list_lookup_fmap, lookup_seq_lt by lia. simpl.
      f_equal. apply map_ext_in. intros dim Hdim. apply in_seq in Hdim.
      unfold grid_coordinate. rewrite Z2Nat.id by lia.
      rewrite Hdigits by lia. reflexivity.
    + intros dim Hdim. apply Hdigits. lia.
    + intros q Hq Hqd.
      rewrite initial_points_rows, length_map, length_seq in Hq.
      apply Nat2Z.inj. rewrite Z2Nat.id by lia. apply Huniq; [lia|].
      intros dim Hdim. apply Hqd. lia.
Qed.
End SamplerProperties.

(** The hypothesis of [create_point_list_grid_is_product] holds of the box
    [-1, 1] x [0, 1] with the edge length one half, on binary64: five points
    by three, and a row of the grid for the third index of the first
    dimension and the second of the second, the point (0, 0.5). *)
Lemma create_point_list_grid_is_product_witness :
  max_points_per_dimension 0.5%float [[-1; 1]; [0; 1]]%float float_to_index
  = [5; 3]%Z /\
  exists point : nat,
    initial_points 0.5%float [[-1; 1]; [0; 1]]%float float_to_index 0%float !! point
    = Some [0; 0.5]%float.
Proof.
  split; [vm_compute; reflexivity|].
  assert (Hpos : Forall (fun c => (0 < c)%Z)
                   (max_points_per_dimension 0.5%float [[-1; 1]; [0; 1]]%float
                      float_to_index)).
  { change (Forall (fun c => (0 < c)%Z) [5; 3]%Z). repeat constructor. }
  assert (Hrange : forall dim, dim < length [[-1; 1]; [0; 1]]%float ->
            (0 <= tri_at [2; 1]%Z dim
             < tri_at (max_points_per_dimension 0.5%float [[-1; 1]; [0; 1]]%float
                         float_to_index) dim)%Z).
  { change (max_points_per_dimension _ _ _) with [5; 3]%Z.
    intros [|[|dim]] Hdim; simpl in Hdim; [vm_compute; split; congruence..|lia]. }
  destruct (proj2 (create_point_list_grid_is_product 0.5%float
                     [[-1; 1]; [0; 1]]%float float_to_index 0%float Hpos)
              [2; 1]%Z eq_refl Hrange) as (point & Hrow & _).
  exists point. exact Hrow.
Defined.
